(** * lighter-sdk: nonce management and transaction submission of [SignerClient]

    A shallow embedding of the signer module of the SDK (the TypeScript
    source behind [SignerClient]): the [OptimisticNonceManager], the
    private-key validation done by the constructor, slot and nonce
    resolution, and the submission wrapper [process_api_key_and_nonce]
    together with [create_order] and [create_market_order].

    Modelling conventions.
    - A JavaScript [number] holding a slot index, a nonce or a code is an
      integer of [Z]; all arithmetic done on them by the source is [+ 1] and
      [- 1], which is exact on the integers a double represents exactly
      (magnitude below 2^53).
    - [Map<number, number>] and the object [{ [key: number]: string }] are
      finite maps [gmap Z _]; [Map.get] and property access are the lookup
      [!!], with [None] for [undefined].
    - A JavaScript string is a [string]; a character is one code unit below
      256.
    - The Exchange API and the native signer are external: their answers are
      fields of an environment record, and every call made to them is
      recorded in a log of events.
    - [async] methods are run to completion, one call at a time. *)

From Stdlib Require Import ZArith String Ascii List Lia.
From stdpp Require Import base option list numbers gmap strings pretty.

Local Open Scope Z_scope.

(** ** The optimistic nonce manager *)

Module NonceManager.

(** What [await this.apiClient.nextNonce(account, key)] yields: the promise
    rejects, or it resolves with a response whose [data.nonce] may be
    [undefined]. *)
Inductive NextNonceResp : Type :=
  | Rejected
  | Resolved (nonce : option Z).

Record OptimisticNonceManager : Type := mkManager {
  nonces : gmap Z Z;
  accountIndex : Z;
  startApiKey : Z;
  endApiKey : Z;
  currentApiKey : Z
}.

(** [x || 0] on the result of [Map.get]: [undefined] and [0] both give [0]. *)
Definition or_zero (o : option Z) : Z :=
  match o with
  | Some v => if decide (v = 0) then 0 else v
  | None => 0
  end.

(** [this.nonces.get(k) || 0], the counter the manager reads for slot [k]. *)
Definition counter (m : OptimisticNonceManager) (k : Z) : Z :=
  or_zero (nonces m !! k).

Definition set_nonce (k v : Z) (m : OptimisticNonceManager) : OptimisticNonceManager :=
  mkManager (<[k:=v]> (nonces m)) (accountIndex m) (startApiKey m) (endApiKey m)
            (currentApiKey m).

(** The values taken by [i] in [for (let i = s; i <= e; i++)]. *)
Definition slot_range (s e : Z) : list Z := seqZ s (e - s + 1).

(** [new OptimisticNonceManager(accountIndex, apiClient, startApiKey, endApiKey)] *)
Definition constructor (account s e : Z) : OptimisticNonceManager :=
  foldl (fun m i => set_nonce i 0 m) (mkManager ∅ account s e s) (slot_range s e).

(** One iteration of the loop of [initialize], and [hard_refresh_nonce]
    itself, given the answer of the API: a rejection is caught and logged,
    an [undefined] nonce is skipped. *)
Definition hard_refresh_nonce (resp : NextNonceResp) (api_key_index : Z)
    (m : OptimisticNonceManager) : OptimisticNonceManager :=
  match resp with
  | Resolved (Some n) => set_nonce api_key_index n m
  | Resolved None => m
  | Rejected => m
  end.

Definition initialize (nextNonce : Z -> Z -> NextNonceResp)
    (m : OptimisticNonceManager) : OptimisticNonceManager :=
  foldl (fun m i => hard_refresh_nonce (nextNonce (accountIndex m) i) i m) m
        (slot_range (startApiKey m) (endApiKey m)).

Definition next_nonce (m : OptimisticNonceManager) : (Z * Z) * OptimisticNonceManager :=
  let apiKeyIndex := currentApiKey m in
  let nonce := counter m apiKeyIndex in
  let m1 := set_nonce apiKeyIndex (nonce + 1) m in
  let next := currentApiKey m1 + 1 in
  let next := if decide (next > endApiKey m1) then startApiKey m1 else next in
  ((apiKeyIndex, nonce),
   mkManager (nonces m1) (accountIndex m1) (startApiKey m1) (endApiKey m1) next).

Definition acknowledge_failure (api_key_index : Z) (m : OptimisticNonceManager)
    : OptimisticNonceManager :=
  let current := counter m api_key_index in
  if decide (current > 0) then set_nonce api_key_index (current - 1) m else m.

(** [n] calls of [next_nonce] in a row: the pairs they return, in order, and
    the manager they leave. *)
Fixpoint issue (n : nat) (m : OptimisticNonceManager)
    : list (Z * Z) * OptimisticNonceManager :=
  match n with
  | O => ([], m)
  | S n' =>
      let '(p, m1) := next_nonce m in
      let '(ps, m2) := issue n' m1 in
      (p :: ps, m2)
  end.

(** The life of a manager: nonces are issued, failures acknowledged, and
    slots refreshed with the answers of the API, whose nonces are not
    negative. *)
Definition answer_not_negative (resp : NextNonceResp) : Prop :=
  match resp with
  | Resolved (Some n) => 0 <= n
  | _ => True
  end.

Inductive manager_step : OptimisticNonceManager -> OptimisticNonceManager -> Prop :=
  | step_next_nonce m : manager_step m (next_nonce m).2
  | step_acknowledge_failure m k : manager_step m (acknowledge_failure k m)
  | step_hard_refresh_nonce m k resp :
      answer_not_negative resp -> manager_step m (hard_refresh_nonce resp k m).

Definition counters_not_negative (m : OptimisticNonceManager) : Prop :=
  forall k, 0 <= counter m k.

(** The round-robin pointer and the bounds of the range are untouched by
    what writes counters. *)
Definition same_rotation (m m' : OptimisticNonceManager) : Prop :=
  startApiKey m' = startApiKey m /\ endApiKey m' = endApiKey m
  /\ currentApiKey m' = currentApiKey m.

End NonceManager.

(** ** JavaScript strings, thrown values and results *)

Module Js.

Local Open Scope string_scope.

(** The white space and line terminators that [String.prototype.trim]
    removes, among the code units below 256: TAB, LF, VT, FF, CR, SP, NBSP. *)
Definition is_white_space (c : ascii) : bool :=
  existsb (Nat.eqb (nat_of_ascii c)) [9; 10; 11; 12; 13; 32; 160]%nat.

Fixpoint trimStart (s : string) : string :=
  match s with
  | EmptyString => EmptyString
  | String c s' => if is_white_space c then trimStart s' else s
  end.

Fixpoint trimEnd (s : string) : string :=
  match s with
  | EmptyString => EmptyString
  | String c s' =>
      match trimEnd s' with
      | EmptyString => if is_white_space c then EmptyString else String c EmptyString
      | r => String c r
      end
  end.

Definition trim (s : string) : string := trimEnd (trimStart s).

(** [s.split(sep)] for a separator of one character: never empty. *)
Fixpoint split (sep : ascii) (s : string) : list string :=
  match s with
  | EmptyString => [EmptyString]
  | String c s' =>
      if Ascii.eqb c sep then EmptyString :: split sep s'
      else match split sep s' with
           | h :: t => String c h :: t
           | [] => [String c EmptyString]
           end
  end.

(** [s.startsWith(p)] *)
Definition startsWith (p s : string) : bool := String.prefix p s.

(** [s.includes(p)] *)
Fixpoint includes (p s : string) : bool :=
  String.prefix p s ||
  match s with
  | EmptyString => false
  | String _ s' => includes p s'
  end.

(** [s.slice(n)] for [0 <= n] *)
Fixpoint slice (n : nat) (s : string) : string :=
  match n, s with
  | O, _ => s
  | S n', String _ s' => slice n' s'
  | S _, EmptyString => EmptyString
  end.

(** [s[0]] *)
Definition char_at_0 (s : string) : option ascii :=
  match s with
  | String c _ => Some c
  | EmptyString => None
  end.

(** [a || b] on strings that may be [null] or [undefined]: the empty string
    is falsy. *)
Definition truthy (o : option string) : option string :=
  match o with
  | Some s => if decide (s = EmptyString) then None else Some s
  | None => None
  end.

Definition or_else (o : option string) (d : string) : string :=
  match truthy o with
  | Some s => s
  | None => d
  end.

(** A thrown value, as far as the source looks at it: [error.response?.status],
    [error.message] and [String(error)]. What the modelled code throws or
    receives from the HTTP client is an object, never [null] or [undefined]. *)
Record Error : Type := mkError {
  response_status : option Z;
  message : option string;
  toString : string
}.

(** [new Error(msg)] *)
Definition new_Error (msg : string) : Error :=
  mkError None (Some msg) (if decide (msg = EmptyString) then "Error" else "Error: " ++ msg).

(** Reading a property of [undefined]. *)
Definition TypeError_undefined (prop : string) : Error :=
  let msg := "Cannot read properties of undefined (reading '" ++ prop ++ "')" in
  mkError None (Some msg) ("TypeError: " ++ msg).

(** A call returns a value or throws. *)
Inductive outcome (A : Type) : Type :=
  | Returns (a : A)
  | Throws (e : Error).
Arguments Returns {A} a.
Arguments Throws {A} e.

End Js.

(** [trim_exc], a function of the signer module. *)
Definition trim_exc (exception_body : string) : string :=
  let t := Js.trim exception_body in
  Js.or_else (last (Js.split "010"%char t)) t.

(** ** The signer client *)

Module Signer.

Import NonceManager.
Export Js.

Local Open Scope string_scope.

Definition CODE_OK : Z := 200.

Inductive NonceManagerType : Type := OPTIMISTIC | PESSIMISTIC.

(** Constants of the class [SignerClient]. *)
Definition TX_TYPE_CREATE_ORDER : Z := 14.
Definition ORDER_TYPE_LIMIT : Z := 0.
Definition ORDER_TYPE_MARKET : Z := 1.
Definition ORDER_TIME_IN_FORCE_IMMEDIATE_OR_CANCEL : Z := 0.
Definition ORDER_TIME_IN_FORCE_GOOD_TILL_TIME : Z := 1.
Definition NIL_TRIGGER_PRICE : Z := 0.
Definition DEFAULT_28_DAY_ORDER_EXPIRY : Z := -1.
Definition DEFAULT_IOC_EXPIRY : Z := 0.
Definition TX_TYPE_CREATE_SUB_ACCOUNT : Z := 9.
Definition ORDER_TYPE_STOP_LOSS : Z := 2.
Definition ORDER_TYPE_STOP_LOSS_LIMIT : Z := 3.
Definition ORDER_TYPE_TAKE_PROFIT : Z := 4.
Definition ORDER_TYPE_TAKE_PROFIT_LIMIT : Z := 5.

(** The struct [StrOrErr] the native signer returns: two C strings, either
    of which may be null. *)
Record StrOrErr : Type := mkStrOrErr { str : option string; err : option string }.

(** The body of a [sendTx] response; the wrapper reads [code] only. *)
Record RespSendTx : Type := mkResp { code : Z; tx_hash : string }.

(** The value [JSON.parse] returns, kept as the text it was parsed from. *)
Inductive Json : Type := JsonOf (text : string).

(** The arguments of [SignCreateOrder], in the order of the call. *)
Record CreateOrderArgs : Type := mkOrder {
  market_index : Z;
  client_order_index : Z;
  base_amount : Z;
  price : Z;
  is_ask : Z;
  order_type : Z;
  time_in_force : Z;
  reduce_only : Z;
  trigger_price : Z;
  order_expiry : Z
}.

(** Calls the client makes, in the order it makes them: to its nonce
    manager, to the native signer and to the Exchange API. *)
Inductive event : Type :=
  | Call_next_nonce (issued : Z * Z)
  | Call_acknowledge_failure (api_key_index : Z)
  | Call_hard_refresh_nonce (api_key_index : Z)
  | Api_nextNonce (account_index api_key_index : Z)
  | Api_sendTx (tx_type : Z) (tx_info : string)
  | Native_CreateClient (url : string) (private_key : option string)
      (chain_id api_key_index account_index : Z)
  | Native_SwitchAPIKey (api_key_index : Z)
  | Native_SignCreateOrder (args : CreateOrderArgs) (nonce : Z).

(** The answers of the external collaborators. Each may depend on the calls
    made so far. A null C string or a null struct is [None]. *)
Record Env : Type := mkEnv {
  nextNonce : list event -> Z -> Z -> NextNonceResp;
  sendTx : list event -> Z -> string -> outcome RespSendTx;
  CreateClient : list event -> string -> option string -> Z -> Z -> Z -> option string;
  SwitchAPIKey : list event -> Z -> option string;
  SignCreateOrder : list event -> CreateOrderArgs -> Z -> option StrOrErr;
  JSON_parse : string -> outcome Json
}.

(** The fields of a [SignerClient] that the modelled methods read, and the
    nonce manager it owns. *)
Record SignerClient : Type := mkClient {
  url : string;
  private_key : string;
  chain_id : Z;
  api_key_index : Z;
  end_api_key_index : Z;
  api_key_dict : gmap Z string;
  account_index : Z;
  nonce_manager : OptimisticNonceManager
}.

(** A method runs on the client and the log of calls, and returns or throws;
    what was done before a throw stays done. *)
Record World : Type := mkWorld { this : SignerClient; log : list event }.

Definition M (A : Type) : Type := World -> outcome A * World.

#[global] Instance M_ret : MRet M := fun A a w => (Returns a, w).
#[global] Instance M_bind : MBind M := fun A B f c w =>
  match c w with
  | (Returns a, w') => f a w'
  | (Throws e, w') => (Throws e, w')
  end.

Definition throw {A : Type} (e : Error) : M A := fun w => (Throws e, w).

(** [try { body } catch (error) { handler }] *)
Definition try_catch {A : Type} (body : M A) (handler : Error -> M A) : M A :=
  fun w =>
    match body w with
    | (Returns a, w') => (Returns a, w')
    | (Throws e, w') => handler e w'
    end.

Definition get_this : M SignerClient := fun w => (Returns (this w), w).
Definition get_log : M (list event) := fun w => (Returns (log w), w).
Definition emit (e : event) : M unit := fun w => (Returns tt, mkWorld (this w) (log w ++ [e])).

Definition with_manager (m : OptimisticNonceManager) (c : SignerClient) : SignerClient :=
  mkClient (url c) (private_key c) (chain_id c) (Signer.api_key_index c) (end_api_key_index c)
           (api_key_dict c) (account_index c) m.

Definition put_manager (m : OptimisticNonceManager) : M unit :=
  fun w => (Returns tt, mkWorld (with_manager m (this w)) (log w)).

(** *** Construction: the private keys of the slots *)

Record SignerClientOptions : Type := mkOptions {
  max_api_key_index : Z;
  private_keys : gmap Z string;
  nonce_management_type : NonceManagerType
}.

(** The defaults the constructor gives to absent options. *)
Definition default_options : SignerClientOptions := mkOptions (-1) ∅ OPTIMISTIC.

Definition are_keys_equal (key1 key2 : string) : bool :=
  let start_index1 := if startsWith "0x" key1 then 2%nat else 0%nat in
  let start_index2 := if startsWith "0x" key2 then 2%nat else 0%nat in
  String.eqb (slice start_index1 key1) (slice start_index2 key2).

(** The loop [for (api_key = ...; api_key < ...; api_key++)] of
    [validate_api_private_keys] over the values [api_keys] of [api_key]. *)
Fixpoint check_present (api_keys : list Z) (private_keys : gmap Z string) : outcome unit :=
  match api_keys with
  | [] => Returns tt
  | api_key :: rest =>
      if decide (is_Some (private_keys !! api_key)) then check_present rest private_keys
      else Throws (new_Error ("missing " ++ pretty api_key ++ " private key!"))
  end.

(** [validate_api_private_keys], with [this.api_key_index] and
    [this.end_api_key_index] as its first two arguments.
    [Object.keys(private_keys).length] is the size of the map. *)
Definition validate_api_private_keys (api_key_index end_api_key_index : Z)
    (initial_private_key : string) (private_keys : gmap Z string) : outcome unit :=
  if decide (Z.of_nat (size private_keys) = end_api_key_index - api_key_index + 1) then
    match private_keys !! api_key_index with
    | None => Throws (TypeError_undefined "startsWith")
    | Some key =>
        if negb (are_keys_equal key initial_private_key)
        then Throws (new_Error "inconsistent private keys")
        else Returns tt
    end
  else if decide (Z.of_nat (size private_keys) ≠ end_api_key_index - api_key_index) then
    Throws (new_Error "unexpected number of private keys")
  else
    check_present (seqZ (api_key_index + 1) (end_api_key_index - (api_key_index + 1)))
                  private_keys.

Definition build_api_key_dict (api_key_index end_api_key_index : Z)
    (private_key : string) (private_keys : gmap Z string) : gmap Z string :=
  if decide (Z.of_nat (size private_keys) = end_api_key_index - api_key_index)
  then <[api_key_index := private_key]> private_keys
  else private_keys.

(** [nonce_manager_factory]; the initialisation it starts runs later, as
    [NonceManager.initialize]. *)
Definition nonce_manager_factory (nonce_manager_type : NonceManagerType)
    (account_index start_api_key end_api_key : Z) : outcome OptimisticNonceManager :=
  match nonce_manager_type with
  | OPTIMISTIC => Returns (constructor account_index start_api_key end_api_key)
  | PESSIMISTIC => Throws (new_Error "Unsupported nonce manager type: pessimistic")
  end.

Fixpoint for_each (body : Z -> M unit) (values : list Z) : M unit :=
  match values with
  | [] => mret tt
  | v :: rest => body v ≫= fun _ => for_each body rest
  end.

(** The loop of [check_client] over the values [api_keys] of [api_key];
    [CheckClient] is the native function, which answers an error or null. *)
Fixpoint check_client_loop (CheckClient : Z -> Z -> option string) (c : SignerClient)
    (api_keys : list Z) : option string :=
  match api_keys with
  | [] => None
  | api_key :: rest =>
      match truthy (CheckClient api_key (account_index c)) with
      | Some result => Some (result ++ " on api key " ++ pretty (Signer.api_key_index c))
      | None => check_client_loop CheckClient c rest
      end
  end.

Definition check_client (CheckClient : Z -> Z -> option string) (c : SignerClient)
    : option string :=
  check_client_loop CheckClient c
    (slot_range (Signer.api_key_index c) (end_api_key_index c)).

Section Methods.

Context (env : Env).

Definition create_client (keyIndex : Z) : M unit :=
  c ← get_this;
  l ← get_log;
  let apiKey := api_key_dict c !! keyIndex in
  _ ← emit (Native_CreateClient (url c) apiKey (chain_id c) keyIndex (account_index c));
  match truthy (CreateClient env l (url c) apiKey (chain_id c) keyIndex (account_index c)) with
  | Some err => throw (new_Error err)
  | None => mret tt
  end.

(** [new SignerClient(url, private_key, api_key_index, account_index, options)]:
    the client built, or the error thrown, and the calls made to the native
    signer. *)
Definition new_SignerClient (url private_key : string) (api_key_index account_index : Z)
    (options : SignerClientOptions) : outcome SignerClient * list event :=
  let chain_id := if includes "mainnet" url then 304 else 300 in
  let private_key := if startsWith "0x" private_key then slice 2 private_key else private_key in
  let end_api_key_index :=
    if decide (max_api_key_index options = -1) then api_key_index
    else max_api_key_index options in
  match validate_api_private_keys api_key_index end_api_key_index private_key
          (private_keys options) with
  | Throws e => (Throws e, [])
  | Returns _ =>
      let api_key_dict :=
        build_api_key_dict api_key_index end_api_key_index private_key (private_keys options) in
      match nonce_manager_factory (nonce_management_type options) account_index
              api_key_index end_api_key_index with
      | Throws e => (Throws e, [])
      | Returns manager =>
          let c := mkClient url private_key chain_id api_key_index end_api_key_index
                     api_key_dict account_index manager in
          match for_each create_client (slot_range api_key_index end_api_key_index)
                  (mkWorld c []) with
          | (Returns _, w) => (Returns (this w), log w)
          | (Throws e, w) => (Throws e, log w)
          end
      end
  end.

(** *** Calls to the nonce manager *)

(** [this.nonce_manager.next_nonce()] *)
Definition call_next_nonce : M (Z * Z) :=
  c ← get_this;
  let '(issued, m) := next_nonce (nonce_manager c) in
  _ ← put_manager m;
  _ ← emit (Call_next_nonce issued);
  mret issued.

(** [this.nonce_manager.acknowledge_failure(api_key_index)] *)
Definition call_acknowledge_failure (api_key_index : Z) : M unit :=
  _ ← emit (Call_acknowledge_failure api_key_index);
  c ← get_this;
  put_manager (acknowledge_failure api_key_index (nonce_manager c)).

(** [await this.nonce_manager.hard_refresh_nonce(api_key_index)]: the
    manager asks the API for the nonce of its account and the slot. *)
Definition call_hard_refresh_nonce (api_key_index : Z) : M unit :=
  _ ← emit (Call_hard_refresh_nonce api_key_index);
  c ← get_this;
  l ← get_log;
  let account := accountIndex (nonce_manager c) in
  _ ← emit (Api_nextNonce account api_key_index);
  put_manager (hard_refresh_nonce (nextNonce env l account api_key_index) api_key_index
                 (nonce_manager c)).

(** *** Slot and nonce resolution *)

Definition get_api_key_nonce (api_key_index nonce : Z) : M (Z * Z) :=
  if decide (api_key_index ≠ -1 ∧ nonce ≠ -1) then mret (api_key_index, nonce)
  else if decide (nonce ≠ -1) then
    c ← get_this;
    if decide (Signer.api_key_index c = end_api_key_index c) then call_next_nonce
    else throw (new_Error "ambiguous api key")
  else call_next_nonce.

(** *** Signing and sending *)

Definition switch_api_key (api_key : Z) : M (option string) :=
  l ← get_log;
  _ ← emit (Native_SwitchAPIKey api_key);
  mret (truthy (SwitchAPIKey env l api_key)).

Definition extractStrOrErr (result : option StrOrErr) : StrOrErr :=
  match result with
  | None => mkStrOrErr None (Some "Null result returned")
  | Some r => mkStrOrErr (truthy (str r)) (truthy (err r))
  end.

Definition sign_create_order (market_index client_order_index base_amount price : Z)
    (is_ask : bool) (order_type time_in_force : Z) (reduce_only : bool)
    (trigger_price order_expiry nonce : Z) : M (option string * option string) :=
  let args := mkOrder market_index client_order_index base_amount price
                (if is_ask then 1 else 0) order_type time_in_force
                (if reduce_only then 1 else 0) trigger_price order_expiry in
  l ← get_log;
  _ ← emit (Native_SignCreateOrder args nonce);
  let r := extractStrOrErr (SignCreateOrder env l args nonce) in
  mret (str r, err r).

Definition send_tx (tx_type : Z) (tx_info : string) : M RespSendTx :=
  if decide (char_at_0 tx_info ≠ Some "{"%char) then throw (new_Error tx_info)
  else
    l ← get_log;
    _ ← emit (Api_sendTx tx_type tx_info);
    match sendTx env l tx_type tx_info with
    | Returns data => mret data
    | Throws e => throw e
    end.

(** [CreateOrder.from_json] *)
Definition from_json (json : string) : M Json :=
  match JSON_parse env json with
  | Returns v => mret v
  | Throws e => throw e
  end.

(** *** The submission wrapper *)

(** The triple [[created_tx, ret, err]] a submission method returns. *)
Definition Result (T : Type) : Type := option T * option RespSendTx * option string.

(** [(ret === null && err) || (ret && ret.code !== CODE_OK)] *)
Definition attempt_failed (ret : option RespSendTx) (err : option string) : bool :=
  (bool_decide (ret = None) && bool_decide (is_Some (truthy err)))
  || match ret with
     | Some r => bool_decide (code r ≠ CODE_OK)
     | None => false
     end.

(** [error.response?.status === 400 && error.message?.includes("invalid nonce")] *)
Definition is_invalid_nonce (error : Error) : bool :=
  bool_decide (response_status error = Some 400)
  && match message error with
     | Some m => includes "invalid nonce" m
     | None => false
     end.

(** [error.message || String(error)] *)
Definition error_text (error : Error) : string :=
  or_else (message error) (toString error).

(** The nonce manager of a client is always an [OptimisticNonceManager]
    ([nonce_manager_factory] builds no other), so the [instanceof] test of
    the handler holds. *)
Definition process_api_key_and_nonce {T : Type} (func : Z -> Z -> M (Result T))
    (api_key_index nonce : Z) : M (Result T) :=
  '(actualApiKeyIndex, actualNonce) ←
    (if decide (api_key_index = -1 ∧ nonce = -1) then call_next_nonce
     else mret (api_key_index, nonce));
  err ← switch_api_key actualApiKeyIndex;
  match truthy err with
  | Some err => throw (new_Error ("error switching api key: " ++ err))
  | None =>
      try_catch
        (result ← func actualNonce actualApiKeyIndex;
         let '(created_tx, ret, err) := result in
         _ ← (if attempt_failed ret err then call_acknowledge_failure actualApiKeyIndex
              else mret tt);
         mret result)
        (fun error =>
           if is_invalid_nonce error then
             _ ← call_hard_refresh_nonce actualApiKeyIndex;
             mret (None, None, Some (trim_exc (error_text error)))
           else
             _ ← call_acknowledge_failure actualApiKeyIndex;
             mret (None, None, Some (trim_exc (error_text error))))
  end.

(** *** Orders *)

(** The arrow function [async (n, ak) => ...] that [create_order] hands to
    the wrapper. *)
Definition create_order_func (market_index client_order_index base_amount price : Z)
    (is_ask : bool) (order_type time_in_force : Z) (reduce_only : bool)
    (trigger_price order_expiry : Z) (n ak : Z) : M (Result Json) :=
  '(txInfo, error) ← sign_create_order market_index client_order_index base_amount
                       price is_ask order_type time_in_force reduce_only
                       trigger_price order_expiry n;
  match truthy error with
  | Some error => mret (None, None, Some error)
  | None =>
      match truthy txInfo with
      | None => mret (None, None, Some "No transaction info")
      | Some txInfo =>
          api_response ← send_tx TX_TYPE_CREATE_ORDER txInfo;
          created ← from_json txInfo;
          mret (Some created, Some api_response, None)
      end
  end.

Definition create_order (market_index client_order_index base_amount price : Z)
    (is_ask : bool) (order_type time_in_force : Z) (reduce_only : bool)
    (trigger_price order_expiry nonce api_key_index : Z) : M (Result Json) :=
  process_api_key_and_nonce
    (create_order_func market_index client_order_index base_amount price is_ask
       order_type time_in_force reduce_only trigger_price order_expiry)
    api_key_index nonce.

Definition create_market_order (market_index client_order_index base_amount
    avg_execution_price : Z) (is_ask reduce_only : bool) (nonce api_key_index : Z)
    : M (Result Json) :=
  create_order market_index client_order_index base_amount avg_execution_price is_ask
    ORDER_TYPE_MARKET ORDER_TIME_IN_FORCE_IMMEDIATE_OR_CANCEL reduce_only
    NIL_TRIGGER_PRICE DEFAULT_IOC_EXPIRY nonce api_key_index.

Definition create_tp_order (market_index client_order_index base_amount trigger_price
    price : Z) (is_ask reduce_only : bool) (nonce api_key_index : Z) : M (Result Json) :=
  create_order market_index client_order_index base_amount price is_ask
    ORDER_TYPE_TAKE_PROFIT ORDER_TIME_IN_FORCE_IMMEDIATE_OR_CANCEL reduce_only
    trigger_price DEFAULT_28_DAY_ORDER_EXPIRY nonce api_key_index.

Definition create_tp_limit_order (market_index client_order_index base_amount
    trigger_price price : Z) (is_ask reduce_only : bool) (nonce api_key_index : Z)
    : M (Result Json) :=
  create_order market_index client_order_index base_amount price is_ask
    ORDER_TYPE_TAKE_PROFIT_LIMIT ORDER_TIME_IN_FORCE_GOOD_TILL_TIME reduce_only
    trigger_price DEFAULT_28_DAY_ORDER_EXPIRY nonce api_key_index.

Definition create_sl_order (market_index client_order_index base_amount trigger_price
    price : Z) (is_ask reduce_only : bool) (nonce api_key_index : Z) : M (Result Json) :=
  create_order market_index client_order_index base_amount price is_ask
    ORDER_TYPE_STOP_LOSS ORDER_TIME_IN_FORCE_IMMEDIATE_OR_CANCEL reduce_only
    trigger_price DEFAULT_28_DAY_ORDER_EXPIRY nonce api_key_index.

Definition create_sl_limit_order (market_index client_order_index base_amount
    trigger_price price : Z) (is_ask reduce_only : bool) (nonce api_key_index : Z)
    : M (Result Json) :=
  create_order market_index client_order_index base_amount price is_ask
    ORDER_TYPE_STOP_LOSS_LIMIT ORDER_TIME_IN_FORCE_GOOD_TILL_TIME reduce_only
    trigger_price DEFAULT_28_DAY_ORDER_EXPIRY nonce api_key_index.

(** *** Sub-accounts

    [create_sub_account] does not go through the wrapper. The native function
    [SignCreateSubAccount] is an argument; the log records the call to the
    API. *)
Definition sign_create_sub_account (SignCreateSubAccount : Z -> option StrOrErr)
    (nonce : Z) : option string * option string :=
  let r := extractStrOrErr (SignCreateSubAccount nonce) in
  (str r, err r).

Definition create_sub_account (SignCreateSubAccount : Z -> option StrOrErr) (nonce : Z)
    : M (Result string) :=
  let '(txInfo, error) := sign_create_sub_account SignCreateSubAccount nonce in
  match truthy error with
  | Some error => mret (None, None, Some error)
  | None =>
      match truthy txInfo with
      | None => mret (None, None, Some "No transaction info")
      | Some txInfo =>
          api_response ← send_tx TX_TYPE_CREATE_SUB_ACCOUNT txInfo;
          mret (Some txInfo, Some api_response, None)
      end
  end.

(** *** When the attempt of a submission starts

    [attempt_starts aki nonce w k n w1]: a submission called with
    [api_key_index = aki] and [nonce] in the world [w] has chosen the slot [k]
    and the nonce [n], has switched the native signer to [k] without an
    error, and is about to run its signing function in the world [w1]. *)
Inductive attempt_starts : Z -> Z -> World -> Z -> Z -> World -> Prop :=
  | starts_managed w k n w0 w1 :
      call_next_nonce w = (Returns (k, n), w0) ->
      switch_api_key k w0 = (Returns None, w1) ->
      attempt_starts (-1) (-1) w k n w1
  | starts_explicit api_key_index nonce w w1 :
      ~ (api_key_index = -1 /\ nonce = -1) ->
      switch_api_key api_key_index w = (Returns None, w1) ->
      attempt_starts api_key_index nonce w api_key_index nonce w1.

End Methods.

End Signer.

(** ** Notions the properties are stated with *)

Module Spec.

Import Signer.

Definition newline : ascii := "010"%char.

(** [l] is the last line of [t]: it holds no line break, and it is all of
    [t] or what follows a line break of [t]. *)
Definition is_last_line (l t : string) : Prop :=
  (newline ∉ list_ascii_of_string l) /\
  (t = l \/ exists before, t = (before ++ String newline l)%string).

(** A key without its optional [0x] prefix. *)
Definition without_0x (key : string) : string :=
  if startsWith "0x" key then slice 2 key else key.

(** The two shapes of [private_keys] the specification accepts for the slots
    [start .. end] and the primary key: a key for every slot but the initial
    one, or a key for every slot, the one of the initial slot being the
    primary key up to the prefix. *)
Definition keys_consistent (start_key end_key : Z) (primary : string)
    (private_keys : gmap Z string) : Prop :=
  (forall k, is_Some (private_keys !! k) <-> (start_key < k <= end_key))
  \/ ((forall k, is_Some (private_keys !! k) <-> (start_key <= k <= end_key))
      /\ exists key, private_keys !! start_key = Some key
                     /\ without_0x key = without_0x primary).

(** What the wrapper makes of the outcome of the signing function run for
    the slot [k]: a returned triple is handed back, after a rollback of the
    slot if it reports a failure; a thrown error becomes a triple, after a
    refresh of the slot if it is a rejection of the nonce and after a
    rollback otherwise. *)
Definition settled {T : Type} (env : Env) (k : Z)
    (attempt : outcome (Result T) * World) : outcome (Result T) * World :=
  match attempt with
  | (Returns r, w2) =>
      (Returns r, if attempt_failed r.1.2 r.2 then (call_acknowledge_failure k w2).2 else w2)
  | (Throws e, w2) =>
      (Returns (None, None, Some (trim_exc (error_text e))),
       if is_invalid_nonce e then (call_hard_refresh_nonce env k w2).2
       else (call_acknowledge_failure k w2).2)
  end.

End Spec.

(** ** Sample collaborators and clients *)

Module Sample.

Import NonceManager Signer.

Local Open Scope string_scope.

(** An API that answers [nonce] to every nonce request and accepts every
    transaction, and a native signer that reports no error and signs
    everything as [{}]. *)
Definition agreeable (nonce : Z) : Env :=
  mkEnv (fun _ _ _ => Resolved (Some nonce))
        (fun _ _ _ => Returns (mkResp 200 "hash"))
        (fun _ _ _ _ _ _ => None)
        (fun _ _ => None)
        (fun _ _ _ => Some (mkStrOrErr (Some "{}") None))
        (fun text => Returns (JsonOf text)).

(** The same, with a signer that fails to sign. *)
Definition unsigning (nonce : Z) : Env :=
  mkEnv (nextNonce (agreeable nonce)) (sendTx (agreeable nonce))
        (CreateClient (agreeable nonce)) (SwitchAPIKey (agreeable nonce))
        (fun _ _ _ => Some (mkStrOrErr None (Some "invalid signature")))
        (JSON_parse (agreeable nonce)).

(** The same as [agreeable], with an API that rejects every transaction with
    the error [e]. *)
Definition rejecting (nonce : Z) (e : Error) : Env :=
  mkEnv (nextNonce (agreeable nonce)) (fun _ _ _ => Throws e)
        (CreateClient (agreeable nonce)) (SwitchAPIKey (agreeable nonce))
        (SignCreateOrder (agreeable nonce)) (JSON_parse (agreeable nonce)).

(** The same as [agreeable], with a native signer that refuses to create
    the client of the slot [slot]. *)
Definition refusing_slot (nonce slot : Z) : Env :=
  mkEnv (nextNonce (agreeable nonce)) (sendTx (agreeable nonce))
        (fun _ _ _ _ k _ => if decide (k = slot) then Some "invalid private key" else None)
        (SwitchAPIKey (agreeable nonce))
        (SignCreateOrder (agreeable nonce)) (JSON_parse (agreeable nonce)).

(** The same as [agreeable], with a payload that fails to parse. *)
Definition unparsable (nonce : Z) (e : Error) : Env :=
  mkEnv (nextNonce (agreeable nonce)) (sendTx (agreeable nonce))
        (CreateClient (agreeable nonce)) (SwitchAPIKey (agreeable nonce))
        (SignCreateOrder (agreeable nonce)) (fun _ => Throws e).

(** The same as [agreeable], with a native signer whose signature is the
    text [payload]. *)
Definition signing_as (nonce : Z) (payload : option StrOrErr) : Env :=
  mkEnv (nextNonce (agreeable nonce)) (sendTx (agreeable nonce))
        (CreateClient (agreeable nonce)) (SwitchAPIKey (agreeable nonce))
        (fun _ _ _ => payload) (JSON_parse (agreeable nonce)).

(** The same as [agreeable], with a native signer that cannot switch keys. *)
Definition unswitching (nonce : Z) : Env :=
  mkEnv (nextNonce (agreeable nonce)) (sendTx (agreeable nonce))
        (CreateClient (agreeable nonce)) (fun _ _ => Some "client is not created")
        (SignCreateOrder (agreeable nonce)) (JSON_parse (agreeable nonce)).

(** The same as [rejecting], with an API that does not answer nonce
    requests. *)
Definition rejecting_unreachable (e : Error) : Env :=
  mkEnv (fun _ _ _ => Rejected) (fun _ _ _ => Throws e)
        (CreateClient (agreeable 0)) (SwitchAPIKey (agreeable 0))
        (SignCreateOrder (agreeable 0)) (JSON_parse (agreeable 0)).

(** The rejection of a transaction for its nonce, as the HTTP client throws
    it. *)
Definition invalid_nonce_error : Error :=
  mkError (Some 400)
    (Some ("Request failed with status code 400"
           ++ String "010" ("invalid nonce" ++ String "010" EmptyString)))
    "AxiosError: Request failed with status code 400".

(** A failure of the network. *)
Definition network_error : Error :=
  mkError None (Some "connect ECONNREFUSED") "Error: connect ECONNREFUSED".

(** A client of the account 410044 owning the slots [first .. last], whose
    manager has every counter at [nonce]. *)
Definition client (first last nonce : Z) : SignerClient :=
  mkClient "https://mainnet.zklighter.elliot.ai" "aa" 304 first last ∅ 410044
    (initialize (fun _ _ => Resolved (Some nonce)) (constructor 410044 first last)).

Definition world (first last nonce : Z) : World := mkWorld (client first last nonce) [].

(** Private keys for a client of the slots 0 to 2. *)
Definition keys_0_1_2_mismatched : gmap Z string :=
  <[0 := "0xab"]> (<[1 := "bb"]> (<[2 := "cc"]> ∅)).
Definition keys_0_8_9 : gmap Z string := <[0 := "0xaa"]> (<[8 := "bb"]> (<[9 := "cc"]> ∅)).

End Sample.

(** ** The fast-withdraw script: fixed-width hexadecimal *)

Module FastWithdraw.

Local Open Scope string_scope.

Definition hex_digit (d : Z) : ascii :=
  match d with
  | 0 => "0" | 1 => "1" | 2 => "2" | 3 => "3" | 4 => "4" | 5 => "5" | 6 => "6" | 7 => "7"
  | 8 => "8" | 9 => "9" | 10 => "a" | 11 => "b" | 12 => "c" | 13 => "d" | 14 => "e"
  | _ => "f"
  end%char.

(** The digits of [n], the last one first, put before [acc]; [fuel] bounds
    their number. *)
Fixpoint toString16_digits (fuel : nat) (n : Z) (acc : string) : string :=
  match fuel with
  | O => acc
  | S fuel' =>
      let acc' := String (hex_digit (n mod 16)) acc in
      if decide (n / 16 = 0) then acc' else toString16_digits fuel' (n / 16) acc'
  end.

(** [n.toString(16)] for a BigInt [n] that is not negative. *)
Definition toString16 (n : Z) : string :=
  toString16_digits (S (Z.to_nat (Z.log2 n))) n EmptyString.

Fixpoint repeat_char (c : ascii) (n : nat) : string :=
  match n with
  | O => EmptyString
  | S n' => String c (repeat_char c n')
  end.

(** [s.padStart(targetLength, c)] for a filler of one character. *)
Definition padStart (targetLength : nat) (c : ascii) (s : string) : string :=
  repeat_char c (targetLength - String.length s) ++ s.

(** [hex16]: [BigInt(n) & 0xffffffffffffffffn], in hexadecimal, padded to 16
    characters. *)
Definition hex16 (n : Z) : string :=
  padStart 16 "0" (toString16 (Z.land n 18446744073709551615)).

(** The value of a hexadecimal digit, and the number a string of such
    digits denotes. *)
Definition digit_value (c : ascii) : Z :=
  let v := Z.of_nat (nat_of_ascii c) in
  if decide (48 <= v <= 57) then v - 48
  else if decide (97 <= v <= 102) then v - 87
  else 0.

Fixpoint hex_value (s : string) : Z :=
  match s with
  | EmptyString => 0
  | String c s' => digit_value c * 16 ^ Z.of_nat (String.length s') + hex_value s'
  end.

End FastWithdraw.

(** * Properties *)

Import NonceManager Signer.

(** ** Nonce manager *)

Lemma counter_set_nonce_eq k v m : counter (set_nonce k v m) k = v.
Proof.
  unfold counter, set_nonce; simpl. rewrite lookup_insert_eq. simpl.
  case_decide; lia.
Qed.

Lemma counter_set_nonce_ne k k' v m : k <> k' -> counter (set_nonce k v m) k' = counter m k'.
Proof.
  intros Hne. unfold counter, set_nonce; simpl. by rewrite lookup_insert_ne.
Qed.

(** One call of [next_nonce]: what it returns and what it leaves. *)
Lemma next_nonce_spec m :
  let '(p, m') := next_nonce m in
  p = (currentApiKey m, counter m (currentApiKey m))
  /\ counter m' (currentApiKey m) = counter m (currentApiKey m) + 1
  /\ (forall k, k <> currentApiKey m -> nonces m' !! k = nonces m !! k)
  /\ accountIndex m' = accountIndex m
  /\ startApiKey m' = startApiKey m
  /\ endApiKey m' = endApiKey m
  /\ currentApiKey m' =
       (if decide (currentApiKey m + 1 > endApiKey m) then startApiKey m
        else currentApiKey m + 1).
Proof.
  unfold next_nonce; simpl. repeat split.
  - unfold counter at 1; simpl. rewrite lookup_insert_eq. simpl. case_decide; lia.
  - intros k Hk. by rewrite lookup_insert_ne.
Qed.

Lemma next_nonce_counter_mono m k : counter m k <= counter (next_nonce m).2 k.
Proof.
  pose proof (next_nonce_spec m) as H. destruct (next_nonce m) as [p m'].
  destruct H as (_ & Hc & Ho & _). simpl.
  destruct (decide (k = currentApiKey m)) as [->|Hne]; [lia|].
  unfold counter. rewrite Ho; [lia|done].
Qed.

Lemma issue_S n m :
  issue (S n) m = ((next_nonce m).1 :: (issue n (next_nonce m).2).1,
                   (issue n (next_nonce m).2).2).
Proof.
  cbn [issue]. destruct (next_nonce m) as [p m1]. cbn [fst snd].
  by destruct (issue n m1).
Qed.

Lemma issue_lower_bound n : forall m i k v,
  (issue n m).1 !! i = Some (k, v) -> counter m k <= v.
Proof.
  induction n as [|n IH]; intros m i k v H; [done|].
  rewrite issue_S in H.
  destruct i as [|i].
  - assert (Hp : (next_nonce m).1 = (k, v)) by (apply (inj Some); exact H).
    pose proof (next_nonce_spec m) as Hs. destruct (next_nonce m) as [p m1].
    destruct Hs as (-> & _). injection Hp as <- <-. lia.
  - assert (H' : (issue n (next_nonce m).2).1 !! i = Some (k, v)) by exact H.
    apply IH in H'. pose proof (next_nonce_counter_mono m k). lia.
Qed.

Lemma issue_increasing n : forall m (i j : nat) k v v',
  (i < j)%nat ->
  (issue n m).1 !! i = Some (k, v) ->
  (issue n m).1 !! j = Some (k, v') ->
  v < v'.
Proof.
  induction n as [|n IH]; intros m i j k v v' Hij Hi Hj; [done|].
  rewrite issue_S in Hi, Hj.
  destruct j as [|j]; [lia|].
  assert (Hj' : (issue n (next_nonce m).2).1 !! j = Some (k, v')) by exact Hj.
  destruct i as [|i].
  - assert (Hp : (next_nonce m).1 = (k, v)) by (apply (inj Some); exact Hi).
    apply issue_lower_bound in Hj'.
    pose proof (next_nonce_spec m) as Hs. destruct (next_nonce m) as [p m1].
    destruct Hs as (-> & Hc & _). injection Hp as <- <-. cbn [snd] in Hj'. lia.
  - assert (Hi' : (issue n (next_nonce m).2).1 !! i = Some (k, v)) by exact Hi.
    eapply IH; [|exact Hi'|exact Hj']. lia.
Qed.

(** C1. In a run of [next_nonce] calls with nothing in between, two calls
    that return the same slot return different nonces. *)
Theorem no_double_issuance (m : OptimisticNonceManager) (n i j : nat) (k v v' : Z) :
  i <> j ->
  (issue n m).1 !! i = Some (k, v) ->
  (issue n m).1 !! j = Some (k, v') ->
  v <> v'.
Proof.
  intros Hij Hi Hj.
  destruct (Nat.lt_total i j) as [Hlt|[Heq|Hgt]]; [|done|].
  - pose proof (issue_increasing n m i j k v v' Hlt Hi Hj). lia.
  - pose proof (issue_increasing n m j i k v' v Hgt Hj Hi). lia.
Qed.

Lemma no_double_issuance_witness :
  (issue 4 (constructor 1 3 4)).1 !! 0%nat = Some (3, 0)
  /\ (issue 4 (constructor 1 3 4)).1 !! 2%nat = Some (3, 1)
  /\ 0 <> 1.
Proof.
  assert (H0 : (issue 4 (constructor 1 3 4)).1 !! 0%nat = Some (3, 0)) by (vm_compute; reflexivity).
  assert (H2 : (issue 4 (constructor 1 3 4)).1 !! 2%nat = Some (3, 1)) by (vm_compute; reflexivity).
  split; [exact H0|]. split; [exact H2|].
  apply (no_double_issuance (constructor 1 3 4) 4 0 2 3 0 1); [lia|exact H0|exact H2].
Defined.

(** No counter of a manager is ever negative. *)
Lemma counters_not_negative_set_nonce k v m :
  0 <= v -> counters_not_negative m -> counters_not_negative (set_nonce k v m).
Proof.
  intros Hv Hm k'. destruct (decide (k = k')) as [<-|Hne].
  - by rewrite counter_set_nonce_eq.
  - rewrite counter_set_nonce_ne by done. apply Hm.
Qed.

Lemma counters_not_negative_constructor account s e :
  counters_not_negative (constructor account s e).
Proof.
  unfold constructor.
  assert (H0 : counters_not_negative (mkManager ∅ account s e s)) by (intros k; done).
  revert H0. generalize (mkManager ∅ account s e s).
  induction (slot_range s e) as [|i l IH]; intros m Hm; [done|].
  cbn [foldl]. apply IH. by apply counters_not_negative_set_nonce.
Qed.

Lemma counters_not_negative_step m m' :
  manager_step m m' -> counters_not_negative m -> counters_not_negative m'.
Proof.
  intros Hstep Hm. destruct Hstep as [m|m k|m k resp Hresp].
  - intros k. pose proof (next_nonce_counter_mono m k). specialize (Hm k). lia.
  - unfold acknowledge_failure. case_decide; [|done].
    apply counters_not_negative_set_nonce; [lia|done].
  - destruct resp as [|[n|]]; [done| |done].
    by apply counters_not_negative_set_nonce.
Qed.

Lemma counters_not_negative_steps m m' :
  rtc manager_step m m' -> counters_not_negative m -> counters_not_negative m'.
Proof.
  induction 1 as [m|m m' m'' Hstep _ IH]; [done|].
  intros H. apply IH. by apply (counters_not_negative_step m).
Qed.

Lemma counters_not_negative_reachable account s e m :
  rtc manager_step (constructor account s e) m -> counters_not_negative m.
Proof.
  intros Hrtc. apply (counters_not_negative_steps _ _ Hrtc).
  apply counters_not_negative_constructor.
Qed.

Lemma acknowledge_failure_counter m k :
  0 <= counter m k ->
  counter (acknowledge_failure k m) k = Z.max 0 (counter m k - 1).
Proof.
  intros H. unfold acknowledge_failure. case_decide.
  - rewrite counter_set_nonce_eq. lia.
  - lia.
Qed.

Lemma acknowledge_failure_at_zero m k : counter m k = 0 -> acknowledge_failure k m = m.
Proof.
  intros H. unfold acknowledge_failure. case_decide; [lia|done].
Qed.

(** C4. With the counter of the slot in turn at [K], [next_nonce] hands out
    [K] for that slot and [acknowledge_failure] on the slot brings the
    counter back to [K]; on a counter at 0 [acknowledge_failure] changes
    nothing; in general it takes one off the counter and stops at zero. *)
Theorem rollback_restores_counter (m : OptimisticNonceManager) (K : Z) :
  0 <= K ->
  counter m (currentApiKey m) = K ->
  (next_nonce m).1 = (currentApiKey m, K)
  /\ counter (next_nonce m).2 (currentApiKey m) = K + 1
  /\ counter (acknowledge_failure (currentApiKey m) (next_nonce m).2) (currentApiKey m) = K
  /\ (forall m0 k, counter m0 k = 0 ->
        acknowledge_failure k m0 = m0 /\ counter (acknowledge_failure k m0) k = 0)
  /\ (forall m0 k, 0 <= counter m0 k ->
        counter (acknowledge_failure k m0) k = Z.max 0 (counter m0 k - 1)).
Proof.
  intros HK Hc.
  pose proof (next_nonce_spec m) as Hs. destruct (next_nonce m) as [p m1].
  destruct Hs as (-> & Hc1 & _). cbn [fst snd]. rewrite Hc in *.
  repeat split.
  - done.
  - rewrite acknowledge_failure_counter; lia.
  - by apply acknowledge_failure_at_zero.
  - rewrite acknowledge_failure_at_zero; done.
  - intros m0 k Hk. by apply acknowledge_failure_counter.
Qed.

Lemma rollback_restores_counter_witness :
  counter (acknowledge_failure 3 (next_nonce (set_nonce 3 8 (constructor 1 3 3))).2) 3 = 8.
Proof.
  refine (proj1 (proj2 (proj2
    (rollback_restores_counter (set_nonce 3 8 (constructor 1 3 3)) 8 _ _))));
    [lia | vm_compute; reflexivity].
Defined.

(** C5. After [next_nonce] has moved the counter of a slot to [K + 1], a
    [hard_refresh_nonce] of that slot to which the API answers the nonce [M]
    leaves the counter at [M], whatever [K] was; so it does on any slot of
    any manager. *)
Theorem hard_refresh_overrides (m : OptimisticNonceManager) (M : Z) :
  (let '((slot, K), m1) := next_nonce m in
   counter m1 slot = K + 1
   /\ nonces (hard_refresh_nonce (Resolved (Some M)) slot m1) !! slot = Some M
   /\ counter (hard_refresh_nonce (Resolved (Some M)) slot m1) slot = M)
  /\ (forall k, nonces (hard_refresh_nonce (Resolved (Some M)) k m) !! k = Some M
                /\ counter (hard_refresh_nonce (Resolved (Some M)) k m) k = M).
Proof.
  split.
  - pose proof (next_nonce_spec m) as Hs. destruct (next_nonce m) as [[slot K] m1].
    destruct Hs as (Hp & Hc & _). injection Hp as -> ->.
    split; [exact Hc|]. split.
    + cbn. apply lookup_insert_eq.
    + apply counter_set_nonce_eq.
  - intros k. split.
    + cbn. apply lookup_insert_eq.
    + apply counter_set_nonce_eq.
Qed.

Lemma same_rotation_foldl (f : OptimisticNonceManager -> Z -> OptimisticNonceManager) l :
  (forall m i, same_rotation m (f m i)) ->
  forall m, same_rotation m (foldl f m l).
Proof.
  intros Hf. induction l as [|i l IH]; intros m; [done|].
  cbn [foldl]. destruct (IH (f m i)) as (? & ? & ?), (Hf m i) as (? & ? & ?).
  unfold same_rotation. repeat split; congruence.
Qed.

Lemma same_rotation_hard_refresh resp k m : same_rotation m (hard_refresh_nonce resp k m).
Proof. by destruct resp as [|[n|]]. Qed.

Lemma same_rotation_constructor account s e :
  same_rotation (mkManager ∅ account s e s) (constructor account s e).
Proof. apply same_rotation_foldl. done. Qed.

Lemma same_rotation_initialize api m : same_rotation m (initialize api m).
Proof.
  unfold initialize. apply same_rotation_foldl. intros. apply same_rotation_hard_refresh.
Qed.

(** The slots a run hands out depend on the pointer and the bounds only. *)
Lemma issue_slots_ext n : forall m m',
  same_rotation m m' -> (issue n m').1.*1 = (issue n m).1.*1.
Proof.
  induction n as [|n IH]; intros m m' (Hs & He & Hc); [done|].
  rewrite !issue_S. cbn [fst fmap list_fmap].
  pose proof (next_nonce_spec m) as H. pose proof (next_nonce_spec m') as H'.
  destruct (next_nonce m) as [p m1], (next_nonce m') as [p' m1'].
  destruct H as (-> & _ & _ & _ & Hs1 & He1 & Hc1).
  destruct H' as (-> & _ & _ & _ & Hs1' & He1' & Hc1').
  cbn [fst snd]. f_equal; [done|].
  apply IH. unfold same_rotation. rewrite Hs1, Hs1', He1, He1', Hc1, Hc1', Hs, He, Hc. done.
Qed.

Lemma issue_slot n : forall m (i : nat),
  startApiKey m <= currentApiKey m <= endApiKey m ->
  (i < n)%nat ->
  fst <$> (issue n m).1 !! i =
  Some (startApiKey m
        + (currentApiKey m - startApiKey m + Z.of_nat i)
          mod (endApiKey m - startApiKey m + 1)).
Proof.
  induction n as [|n IH]; intros m i Hr Hi; [lia|].
  rewrite issue_S. cbn [fst].
  pose proof (next_nonce_spec m) as H. destruct (next_nonce m) as [p m1].
  destruct H as (-> & _ & _ & _ & Hs1 & He1 & Hc1). cbn [fst snd].
  destruct i as [|i].
  - cbn. f_equal. rewrite Z.add_0_r, Z.mod_small; lia.
  - change (fst <$> (issue n m1).1 !! i =
            Some (startApiKey m + (currentApiKey m - startApiKey m + Z.of_nat (S i))
                                  mod (endApiKey m - startApiKey m + 1))).
    rewrite IH; [|rewrite Hs1, He1, Hc1; case_decide; lia|lia].
    rewrite Hs1, He1, Hc1. f_equal. f_equal. case_decide.
    + replace (currentApiKey m - startApiKey m + Z.of_nat (S i))
        with (Z.of_nat i + 1 * (endApiKey m - startApiKey m + 1)) by lia.
      rewrite Z.mod_add by lia. f_equal. lia.
    + f_equal. lia.
Qed.

(** C6. A manager of the slots 3 to 5 hands out the slots 3, 4, 5, 3, 4, 5
    in six calls, fresh or initialised from the API. In general [next_nonce]
    returns the slot in turn with its current counter, adds one to that
    counter and to no other, and moves the turn to the next slot, back to
    the start slot after the end slot; so the call number [i] of a manager
    at its start returns the slot [start + i mod (end - start + 1)]. *)
Theorem round_robin :
  (forall account, (issue 6 (constructor account 3 5)).1.*1 = [3; 4; 5; 3; 4; 5])
  /\ (forall account api,
        (issue 6 (initialize api (constructor account 3 5))).1.*1 = [3; 4; 5; 3; 4; 5])
  /\ (forall m,
        (next_nonce m).1 = (currentApiKey m, counter m (currentApiKey m))
        /\ counter (next_nonce m).2 (currentApiKey m) = counter m (currentApiKey m) + 1
        /\ (forall k, k <> currentApiKey m ->
              nonces (next_nonce m).2 !! k = nonces m !! k)
        /\ currentApiKey (next_nonce m).2 =
             (if decide (currentApiKey m + 1 > endApiKey m) then startApiKey m
              else currentApiKey m + 1))
  /\ (forall m (n i : nat),
        startApiKey m <= endApiKey m ->
        currentApiKey m = startApiKey m ->
        (i < n)%nat ->
        fst <$> (issue n m).1 !! i =
        Some (startApiKey m + Z.of_nat i mod (endApiKey m - startApiKey m + 1))).
Proof.
  assert (H6 : forall account, (issue 6 (constructor account 3 5)).1.*1 = [3; 4; 5; 3; 4; 5])
    by (intros; vm_compute; reflexivity).
  split; [exact H6|]. split; [|split].
  - intros account api. rewrite <- (H6 account).
    apply issue_slots_ext, same_rotation_initialize.
  - intros m. pose proof (next_nonce_spec m) as H. destruct (next_nonce m) as [p m1].
    destruct H as (-> & Hc & Ho & _ & _ & _ & Hn). done.
  - intros m n i Hse Hc Hi. rewrite issue_slot; [|lia|done].
    rewrite Hc. do 3 f_equal. lia.
Qed.

Lemma round_robin_witness :
  fst <$> (issue 6 (constructor 1 3 5)).1 !! 4%nat = Some (3 + 4 mod (5 - 3 + 1)).
Proof.
  refine (proj2 (proj2 (proj2 round_robin)) (constructor 1 3 5) 6%nat 4%nat _ _ _);
    [vm_compute; discriminate | vm_compute; reflexivity | lia].
Defined.

(** ** Validation of the private keys *)

Lemma are_keys_equal_spec key1 key2 :
  are_keys_equal key1 key2 = true <-> Spec.without_0x key1 = Spec.without_0x key2.
Proof.
  unfold are_keys_equal, Spec.without_0x. rewrite String.eqb_eq.
  by destruct (startsWith "0x" key1), (startsWith "0x" key2).
Qed.

Lemma check_present_all api_keys (private_keys : gmap Z string) :
  (forall k, k ∈ api_keys -> is_Some (private_keys !! k)) ->
  check_present api_keys private_keys = Returns tt.
Proof.
  induction api_keys as [|k l IH]; intros H; [done|].
  cbn [check_present]. rewrite decide_True by (apply H; left).
  apply IH. intros k' Hk'. apply H. by right.
Qed.

Lemma check_present_missing api_keys (private_keys : gmap Z string) :
  (exists k, k ∈ api_keys /\ private_keys !! k = None) ->
  exists k, k ∈ api_keys /\ private_keys !! k = None
    /\ check_present api_keys private_keys
       = Throws (new_Error ("missing " ++ pretty k ++ " private key!")).
Proof.
  induction api_keys as [|k l IH]; intros (k0 & Hin & Hk0).
  - by apply elem_of_nil in Hin.
  - cbn [check_present]. case_decide as Hk.
    + destruct IH as (k' & Hin' & Hk' & Hc).
      * exists k0. split; [|done]. apply elem_of_cons in Hin as [->|Hin]; [|done].
        rewrite Hk0 in Hk. by destruct Hk.
      * exists k'. split; [by right|done].
    + exists k. split; [by left|]. split; [|done].
      destruct (private_keys !! k) eqn:E; [|done]. destruct Hk. eauto.
Qed.

(** A map holding exactly the slots after [start_key] up to [end_key] has
    [end_key - start_key] entries. *)
Lemma size_of_keys_after (start_key end_key : Z) (private_keys : gmap Z string) :
  start_key <= end_key ->
  (forall k, is_Some (private_keys !! k) <-> (start_key < k <= end_key)) ->
  Z.of_nat (size private_keys) = end_key - start_key.
Proof.
  intros Hse Hdom.
  assert (Hd : dom private_keys = list_to_set (seqZ (start_key + 1) (end_key - start_key))).
  { apply set_eq. intros k. rewrite elem_of_dom, elem_of_list_to_set, elem_of_seqZ, Hdom. lia. }
  rewrite <- size_dom, Hd, size_list_to_set by apply NoDup_seqZ.
  rewrite length_seqZ. lia.
Qed.

Lemma validate_keys_after (start_key end_key : Z) primary (private_keys : gmap Z string) :
  start_key <= end_key ->
  (forall k, is_Some (private_keys !! k) <-> (start_key < k <= end_key)) ->
  validate_api_private_keys start_key end_key primary private_keys = Returns tt.
Proof.
  intros Hse Hdom. pose proof (size_of_keys_after _ _ _ Hse Hdom) as Hsize.
  unfold validate_api_private_keys.
  rewrite decide_False by lia. rewrite decide_False by lia.
  apply check_present_all. intros k Hk. apply Hdom.
  apply elem_of_seqZ in Hk. lia.
Qed.

(** At full count the validation reads the entry of the initial slot, and
    no other. *)
Lemma validate_full_count (start_key end_key : Z) primary
    (private_keys : gmap Z string) key :
  Z.of_nat (size private_keys) = end_key - start_key + 1 ->
  private_keys !! start_key = Some key ->
  validate_api_private_keys start_key end_key primary private_keys
  = if decide (Spec.without_0x key = Spec.without_0x primary) then Returns tt
    else Throws (new_Error "inconsistent private keys").
Proof.
  intros Hsize Hkey. unfold validate_api_private_keys.
  rewrite decide_True by done. rewrite Hkey.
  pose proof (are_keys_equal_spec key primary) as Heq.
  destruct (are_keys_equal key primary); cbn [negb].
  - rewrite decide_True; [done|]. by apply Heq.
  - rewrite decide_False; [done|]. intros H. apply Heq in H. done.
Qed.

(** With one entry less, the slots strictly between the initial and the last
    one are looked up. *)
Lemma validate_missing_slot (start_key end_key : Z) primary
    (private_keys : gmap Z string) :
  Z.of_nat (size private_keys) = end_key - start_key ->
  (exists k, start_key < k < end_key /\ private_keys !! k = None) ->
  exists k, start_key < k < end_key /\ private_keys !! k = None
    /\ validate_api_private_keys start_key end_key primary private_keys
       = Throws (new_Error ("missing " ++ pretty k ++ " private key!")).
Proof.
  intros Hsize (k & Hk & Hnone). unfold validate_api_private_keys.
  rewrite decide_False by lia. rewrite decide_False by (intros H; apply H; done).
  destruct (check_present_missing
              (seqZ (start_key + 1) (end_key - (start_key + 1))) private_keys)
    as (k' & Hin & Hk' & Hc).
  - exists k. split; [|done]. apply elem_of_seqZ. lia.
  - exists k'. apply elem_of_seqZ in Hin. split; [lia|done].
Qed.

(** No map with a slot of the range after the initial one absent has one of
    the two shapes. *)
Lemma absent_slot_not_consistent (start_key end_key : Z) primary
    (private_keys : gmap Z string) k :
  start_key < k <= end_key ->
  private_keys !! k = None ->
  ~ Spec.keys_consistent start_key end_key primary private_keys.
Proof.
  intros Hk Hnone [H|[H _]].
  - assert (Hs : is_Some (private_keys !! k)) by (apply H; lia).
    rewrite Hnone in Hs. by destruct Hs.
  - assert (Hs : is_Some (private_keys !! k)) by (apply H; lia).
    rewrite Hnone in Hs. by destruct Hs.
Qed.

(** One turn of the loop of the constructor over the slots. *)
Lemma create_clients_step (env : Env) c k keys l0 :
  for_each (create_client env) (k :: keys) (mkWorld c l0)
  = match truthy (CreateClient env l0 (url c) (api_key_dict c !! k) (chain_id c) k
                    (account_index c)) with
    | Some err =>
        (Throws (new_Error err),
         mkWorld c (l0 ++ [Native_CreateClient (url c) (api_key_dict c !! k) (chain_id c) k
                             (account_index c)]))
    | None =>
        for_each (create_client env) keys
          (mkWorld c (l0 ++ [Native_CreateClient (url c) (api_key_dict c !! k) (chain_id c) k
                               (account_index c)]))
    end.
Proof.
  cbn [for_each]. unfold mbind at 1, M_bind at 1.
  unfold create_client, mbind, M_bind, get_this, get_log, emit. cbn [this log].
  by destruct (truthy _).
Qed.

(** The loop only adds to the calls made. *)
Lemma create_clients_log (env : Env) c keys :
  forall l0, exists rest,
    log (for_each (create_client env) keys (mkWorld c l0)).2 = l0 ++ rest.
Proof.
  induction keys as [|k keys IH]; intros l0.
  - exists []. cbn. by rewrite app_nil_r.
  - rewrite create_clients_step. destruct (truthy _).
    + by eexists.
    + destruct (IH (l0 ++ [Native_CreateClient (url c) (api_key_dict c !! k) (chain_id c) k
                             (account_index c)])) as [rest Hrest].
      rewrite Hrest. rewrite <- app_assoc. by eexists.
Qed.

(** The construction for the slots 0 to 2 and the primary key [aa] with the
    keys [Sample.keys_0_8_9]: the validation passes, and the calls made are
    those of the loop over the slots. *)
Lemma construction_with_keys_0_8_9 (env : Env) (url : string) (account_index : Z) :
  (new_SignerClient env url "aa" 0 account_index
     (mkOptions 2 Sample.keys_0_8_9 OPTIMISTIC)).2
  = log (for_each (create_client env) [0; 1; 2]
           (mkWorld (mkClient url "aa" (if includes "mainnet" url then 304 else 300) 0 2
                       Sample.keys_0_8_9 account_index (constructor account_index 0 2))
                    [])).2.
Proof.
  unfold new_SignerClient.
  cbn [Signer.max_api_key_index Signer.private_keys Signer.nonce_management_type].
  change (startsWith "0x" "aa") with false. cbv iota.
  rewrite (decide_False (P := 2 = -1)) by done.
  change (validate_api_private_keys 0 2 "aa" Sample.keys_0_8_9) with (@Returns unit tt).
  cbv iota. cbn [nonce_manager_factory].
  change (build_api_key_dict 0 2 "aa" Sample.keys_0_8_9) with Sample.keys_0_8_9.
  change (slot_range 0 2) with [0; 1; 2].
  by destruct (for_each _ _ _) as [[?|?] ?].
Qed.

(** C7, on the code. For the slots 0 to 2, a map with keys for the slots 1
    and 2 only passes the validation; a map of as many entries as there are
    slots whose entry at the initial slot is not the primary key, up to a
    [0x] prefix on either, is refused with "inconsistent private keys"; a
    map of any other number of entries than these two is refused with
    "unexpected number of private keys"; and the constructor throws what
    the validation throws, before any call to the native signer. So far the
    claim holds. Its last part does not: a map of neither shape is not
    always refused. [validate_api_private_keys] goes by the number of
    entries. At full count it reads the entry of the initial slot and no
    other, where the path of one entry less looks the slots up ("missing
    <slot> private key!"), and that path stops short of the last slot. So a
    map of full count whose initial entry is the primary key, or a map of
    one entry less holding the slots in between, passes the validation with
    a slot of the range absent, and the dictionary of keys has no key for
    that slot. For the slots 0 to 2 and the primary key [aa], the map with
    keys at 0, 8 and 9 is not refused: the constructor goes on to the native
    signer, and hands it an absent key for the slot 1 once it has taken the
    slot 0. *)
Theorem private_keys_validation_gap (env : Env) (url : string) (account_index : Z) :
  let chain := if includes "mainnet" url then 304 else 300 in
  let built := new_SignerClient env url "aa" 0 account_index
                 (mkOptions 2 Sample.keys_0_8_9 OPTIMISTIC) in
  (forall primary key1 key2,
     validate_api_private_keys 0 2 primary (<[1 := key1]> (<[2 := key2]> ∅)) = Returns tt)
  /\ (forall start_key end_key primary (private_keys : gmap Z string) key,
        Z.of_nat (size private_keys) = end_key - start_key + 1 ->
        private_keys !! start_key = Some key ->
        Spec.without_0x key <> Spec.without_0x primary ->
        validate_api_private_keys start_key end_key primary private_keys
        = Throws (new_Error "inconsistent private keys"))
  /\ (forall start_key end_key primary (private_keys : gmap Z string),
        Z.of_nat (size private_keys) <> end_key - start_key + 1 ->
        Z.of_nat (size private_keys) <> end_key - start_key ->
        validate_api_private_keys start_key end_key primary private_keys
        = Throws (new_Error "unexpected number of private keys"))
  /\ (forall start_key primary max_api_key_index private_keys nonce_management_type e,
        validate_api_private_keys start_key
          (if decide (max_api_key_index = -1) then start_key else max_api_key_index)
          (Spec.without_0x primary) private_keys = Throws e ->
        new_SignerClient env url primary start_key account_index
          (mkOptions max_api_key_index private_keys nonce_management_type)
        = (Throws e, []))
  /\ (forall start_key end_key primary (private_keys : gmap Z string),
        Z.of_nat (size private_keys) = end_key - start_key ->
        (exists k, start_key < k < end_key /\ private_keys !! k = None) ->
        exists k, start_key < k < end_key /\ private_keys !! k = None
          /\ validate_api_private_keys start_key end_key primary private_keys
             = Throws (new_Error ("missing " ++ pretty k ++ " private key!")))
  /\ (forall start_key end_key primary (private_keys : gmap Z string) key k,
        Z.of_nat (size private_keys) = end_key - start_key + 1 ->
        private_keys !! start_key = Some key ->
        Spec.without_0x key = Spec.without_0x primary ->
        start_key < k <= end_key ->
        private_keys !! k = None ->
        ~ Spec.keys_consistent start_key end_key primary private_keys
        /\ validate_api_private_keys start_key end_key primary private_keys = Returns tt
        /\ build_api_key_dict start_key end_key primary private_keys !! k = None)
  /\ (forall start_key end_key primary (private_keys : gmap Z string),
        start_key < end_key ->
        Z.of_nat (size private_keys) = end_key - start_key ->
        (forall k, start_key < k < end_key -> is_Some (private_keys !! k)) ->
        private_keys !! end_key = None ->
        ~ Spec.keys_consistent start_key end_key primary private_keys
        /\ validate_api_private_keys start_key end_key primary private_keys = Returns tt
        /\ build_api_key_dict start_key end_key primary private_keys !! end_key = None)
  /\ ~ Spec.keys_consistent 0 2 "aa" Sample.keys_0_8_9
  /\ validate_api_private_keys 0 2 "aa" Sample.keys_0_8_9 = Returns tt
  /\ (exists rest,
        built.2 = Native_CreateClient url (Some "0xaa") chain 0 account_index :: rest)
  /\ ((forall l, truthy (CreateClient env l url (Some "0xaa") chain 0 account_index) = None) ->
      exists rest,
        built.2 = Native_CreateClient url (Some "0xaa") chain 0 account_index
                  :: Native_CreateClient url None chain 1 account_index :: rest).
Proof.
  intros chain built.
  split.
  { intros primary key1 key2. apply validate_keys_after; [lia|].
    intros k. rewrite lookup_insert_is_Some, lookup_insert_is_Some, lookup_empty.
    split.
    - intros [<-|[_ [<-|[_ H]]]]; [lia|lia|]. by destruct H.
    - intros H. destruct (decide (k = 1)) as [->|]; [by left|].
      right. split; [done|]. left. lia. }
  split.
  { intros start_key end_key primary private_keys key Hsize Hkey Hne.
    rewrite (validate_full_count _ _ _ _ key) by done. by rewrite decide_False. }
  split.
  { intros start_key end_key primary private_keys H1 H2. unfold validate_api_private_keys.
    rewrite decide_False by done. by rewrite decide_True. }
  split.
  { intros start_key primary max_api_key_index private_keys nonce_management_type e H.
    unfold new_SignerClient. cbn [Signer.max_api_key_index Signer.private_keys].
    unfold Spec.without_0x in H. by rewrite H. }
  split; [intros start_key end_key primary private_keys; apply validate_missing_slot|].
  split.
  { intros start_key end_key primary private_keys key k Hsize Hkey Heq Hk Hnone.
    split; [by apply (absent_slot_not_consistent _ _ _ _ k)|].
    split.
    - rewrite (validate_full_count _ _ _ _ key) by done. by rewrite decide_True.
    - unfold build_api_key_dict. by rewrite decide_False by lia. }
  split.
  { intros start_key end_key primary private_keys Hlt Hsize Hbetween Hnone.
    split; [apply (absent_slot_not_consistent _ _ _ _ end_key); [lia|done]|].
    split.
    - unfold validate_api_private_keys.
      rewrite decide_False by lia. rewrite decide_False by (intros H; apply H; done).
      apply check_present_all. intros k Hk. apply Hbetween.
      apply elem_of_seqZ in Hk. lia.
    - unfold build_api_key_dict. rewrite decide_True by done.
      rewrite lookup_insert_ne by lia. done. }
  split; [apply (absent_slot_not_consistent _ _ _ _ 1); [lia|done]|].
  split; [done|].
  subst built. rewrite construction_with_keys_0_8_9. fold chain.
  rewrite create_clients_step. cbn [Signer.url api_key_dict chain_id Signer.account_index app].
  change (Sample.keys_0_8_9 !! 0) with (Some "0xaa").
  split.
  - destruct (truthy _); [by eexists|].
    destruct (create_clients_log env
                (mkClient url "aa" chain 0 2 Sample.keys_0_8_9 account_index
                   (constructor account_index 0 2)) [1; 2]
                [Native_CreateClient url (Some "0xaa") chain 0 account_index])
      as [rest Hrest].
    rewrite Hrest. by eexists.
  - intros Hok. rewrite Hok, create_clients_step.
    cbn [Signer.url api_key_dict chain_id Signer.account_index app].
    change (Sample.keys_0_8_9 !! 1) with (@None string).
    destruct (truthy _); [by eexists|].
    destruct (create_clients_log env
                (mkClient url "aa" chain 0 2 Sample.keys_0_8_9 account_index
                   (constructor account_index 0 2)) [2]
                [Native_CreateClient url (Some "0xaa") chain 0 account_index;
                 Native_CreateClient url None chain 1 account_index])
      as [rest Hrest].
    rewrite Hrest. by eexists.
Qed.

Lemma private_keys_validation_gap_witness :
  validate_api_private_keys 0 2 "aa" Sample.keys_0_1_2_mismatched
  = Throws (new_Error "inconsistent private keys")
  /\ exists rest,
       (new_SignerClient (Sample.refusing_slot 0 1) "url" "aa" 0 410044
          (mkOptions 2 Sample.keys_0_8_9 OPTIMISTIC)).2
       = Native_CreateClient "url" (Some "0xaa") 300 0 410044
         :: Native_CreateClient "url" None 300 1 410044 :: rest.
Proof.
  pose proof (private_keys_validation_gap (Sample.refusing_slot 0 1) "url" 410044) as H.
  cbv zeta in H.
  destruct H as (_ & Hmismatch & _ & _ & _ & _ & _ & _ & _ & _ & Hlog).
  split.
  - apply (Hmismatch 0 2 "aa" Sample.keys_0_1_2_mismatched "0xab");
      [vm_compute; reflexivity | vm_compute; reflexivity | vm_compute; discriminate].
  - apply Hlog. intros l. reflexivity.
Defined.

(** ** Error messages *)

Lemma append_snoc_not_empty pre c : (pre ++ String c EmptyString)%string <> EmptyString.
Proof. by destruct pre. Qed.

Lemma trimEnd_last_not_white x : forall pre c,
  trimEnd x = (pre ++ String c EmptyString)%string -> is_white_space c = false.
Proof.
  induction x as [|a x IH]; intros pre c H.
  - cbn in H. symmetry in H. by apply append_snoc_not_empty in H.
  - cbn [trimEnd] in H. destruct (trimEnd x) as [|b r] eqn:E.
    + destruct (is_white_space a) eqn:W.
      * symmetry in H. by apply append_snoc_not_empty in H.
      * destruct pre as [|p pre]; cbn in H.
        -- by injection H as <-.
        -- injection H as _ H. symmetry in H. by apply append_snoc_not_empty in H.
    + destruct pre as [|p pre]; cbn in H; [done|].
      injection H as _ H. by apply (IH pre).
Qed.

Lemma split_snoc sep t :
  exists init l,
    split sep t = init ++ [l]
    /\ (sep ∉ list_ascii_of_string l)
    /\ (init = [] -> t = l)
    /\ (init <> [] -> exists before, t = (before ++ String sep l)%string).
Proof.
  induction t as [|c t (init & l & Hs & Hno & Hnil & Hcons)].
  - exists [], EmptyString. split_and!; [done|apply not_elem_of_nil|done|done].
  - cbn [split]. destruct (Ascii.eqb_spec c sep) as [->|Hne].
    + exists (EmptyString :: init), l. rewrite Hs. split_and!; [done|done|done|].
      intros _. destruct init as [|h init].
      * exists EmptyString. cbn. by rewrite Hnil.
      * destruct Hcons as [before ->]; [done|]. by exists (String sep before).
    + rewrite Hs. destruct init as [|h init]; cbn [app].
      * exists [], (String c l). rewrite Hnil by done. split_and!; [done| |done|done].
        cbn. rewrite not_elem_of_cons. split; [congruence|done].
      * exists (String c h :: init), l. split_and!; [done|done|done|].
        intros _. destruct Hcons as [before ->]; [done|]. by exists (String c before).
Qed.

(** [trim_exc] gives the last line of the trimmed text. *)
Lemma trim_exc_last_line s : Spec.is_last_line (trim_exc s) (trim s).
Proof.
  unfold trim_exc, Spec.is_last_line.
  destruct (split_snoc Spec.newline (trim s)) as (init & l & Hs & Hno & Hnil & Hcons).
  fold Spec.newline. rewrite Hs, last_snoc. unfold or_else, truthy.
  case_decide as Hl.
  - subst l. destruct init as [|h init].
    + rewrite Hnil by done. split; [done|by left].
    + destruct Hcons as [before Hb]; [done|]. exfalso.
      unfold trim in Hb. by apply trimEnd_last_not_white in Hb.
  - split; [done|]. destruct init as [|h init].
    + left. by apply Hnil.
    + right. by apply Hcons.
Qed.

(** ** The submission wrapper *)

Section Wrapper.

Context (env : Env).

Lemma call_next_nonce_run w :
  call_next_nonce w =
  (Returns (next_nonce (nonce_manager (this w))).1,
   mkWorld (with_manager (next_nonce (nonce_manager (this w))).2 (this w))
           (log w ++ [Call_next_nonce (next_nonce (nonce_manager (this w))).1])).
Proof.
  unfold call_next_nonce, mbind, M_bind, get_this.
  by destruct (next_nonce (nonce_manager (this w))).
Qed.

Lemma call_acknowledge_failure_run k w :
  call_acknowledge_failure k w =
  (Returns tt,
   mkWorld (with_manager (acknowledge_failure k (nonce_manager (this w))) (this w))
           (log w ++ [Call_acknowledge_failure k])).
Proof. reflexivity. Qed.

Lemma call_hard_refresh_nonce_run k w :
  call_hard_refresh_nonce env k w =
  (Returns tt,
   mkWorld (with_manager
              (hard_refresh_nonce
                 (nextNonce env (log w ++ [Call_hard_refresh_nonce k])
                    (accountIndex (nonce_manager (this w))) k)
                 k (nonce_manager (this w)))
              (this w))
           (log w ++ [Call_hard_refresh_nonce k;
                      Api_nextNonce (accountIndex (nonce_manager (this w))) k])).
Proof.
  unfold call_hard_refresh_nonce, mbind, M_bind, get_this, get_log, emit, put_manager.
  cbn. by rewrite <- app_assoc.
Qed.

Lemma switch_api_key_run k w :
  switch_api_key env k w =
  (Returns (truthy (SwitchAPIKey env (log w) k)),
   mkWorld (this w) (log w ++ [Native_SwitchAPIKey k])).
Proof. reflexivity. Qed.

Lemma truthy_idemp o : truthy (truthy o) = truthy o.
Proof. destruct o as [s|]; [|done]. cbn. case_decide; [done|]. cbn. by rewrite decide_False. Qed.

(** The wrapper from the start of the attempt on. *)
Lemma process_after_start {T} (func : Z -> Z -> M (Result T)) aki nonce w k n w1 :
  attempt_starts env aki nonce w k n w1 ->
  process_api_key_and_nonce env func aki nonce w = Spec.settled env k (func n k w1).
Proof.
  intros Hstart. unfold process_api_key_and_nonce, Spec.settled.
  destruct Hstart as [w k n w0 w1 Hnext Hswitch | aki nonce w w1 Hexplicit Hswitch].
  - rewrite decide_True by done. unfold mbind at 1, M_bind at 1. rewrite Hnext.
    unfold mbind at 1, M_bind at 1. rewrite Hswitch. cbn [truthy].
    unfold try_catch, mbind, M_bind.
    destruct (func n k w1) as [[[[c r] e]|e] w2]; cbn [fst snd].
    + by destruct (attempt_failed r e).
    + by destruct (is_invalid_nonce e).
  - rewrite decide_False by done. unfold mbind at 1, M_bind at 1. cbn [mret M_ret].
    unfold mbind at 1, M_bind at 1. rewrite Hswitch. cbn [truthy].
    unfold try_catch, mbind, M_bind.
    destruct (func nonce aki w1) as [[[[c r] e]|e] w2]; cbn [fst snd].
    + by destruct (attempt_failed r e).
    + by destruct (is_invalid_nonce e).
Qed.

End Wrapper.

Lemma is_invalid_nonce_spec e :
  is_invalid_nonce e = true <->
  response_status e = Some 400
  /\ exists m, message e = Some m /\ includes "invalid nonce" m = true.
Proof.
  unfold is_invalid_nonce. rewrite andb_true_iff, bool_decide_eq_true.
  split; intros [H1 H2]; (split; [done|]).
  - destruct (message e) as [m|]; [eauto|done].
  - destruct H2 as (m & -> & H). done.
Qed.

(** C3. When the signing function of a submission throws [e], the method
    returns the triple whose error is [trim_exc] of the text of [e], which
    is the last line of that text once trimmed (the text being the message
    of [e] when it has one). If [e] carries the response status 400 and a
    message containing "invalid nonce", what the wrapper does after the
    throw is to call [hard_refresh_nonce] on the slot, which asks the API
    for the nonce, and nothing else; for any other [e] it calls
    [acknowledge_failure] on the slot, and nothing else. *)
Theorem thrown_attempt_is_reconciled
    (env : Env) (T : Type) (func : Z -> Z -> M (Result T))
    (api_key_index nonce : Z) (w : World) (k n : Z) (w1 : World) (e : Error)
    (w2 : World) :
  attempt_starts env api_key_index nonce w k n w1 ->
  func n k w1 = (Throws e, w2) ->
  let r := process_api_key_and_nonce env func api_key_index nonce w in
  let account := accountIndex (nonce_manager (this w2)) in
  r.1 = Returns (None, None, Some (trim_exc (error_text e)))
  /\ Spec.is_last_line (trim_exc (error_text e)) (trim (error_text e))
  /\ (forall m, message e = Some m -> m <> EmptyString -> error_text e = m)
  /\ (response_status e = Some 400 ->
      (exists m, message e = Some m /\ includes "invalid nonce" m = true) ->
      log r.2 = log w2 ++ [Call_hard_refresh_nonce k; Api_nextNonce account k]
      /\ nonce_manager (this r.2)
         = hard_refresh_nonce
             (nextNonce env (log w2 ++ [Call_hard_refresh_nonce k]) account k)
             k (nonce_manager (this w2)))
  /\ (~ (response_status e = Some 400
         /\ exists m, message e = Some m /\ includes "invalid nonce" m = true) ->
      log r.2 = log w2 ++ [Call_acknowledge_failure k]
      /\ nonce_manager (this r.2) = acknowledge_failure k (nonce_manager (this w2))).
Proof.
  intros Hstart Hfunc r account. subst r.
  rewrite (process_after_start env func _ _ _ _ _ _ Hstart), Hfunc.
  unfold Spec.settled. cbn [fst snd].
  split_and!.
  - done.
  - apply trim_exc_last_line.
  - intros m Hm Hne. unfold error_text, or_else, truthy. rewrite Hm.
    by rewrite decide_False.
  - intros H400 Hmsg.
    assert (Hinv : is_invalid_nonce e = true) by (by apply is_invalid_nonce_spec).
    rewrite Hinv, call_hard_refresh_nonce_run. cbn [snd log this].
    destruct (this w2). done.
  - intros Hnot.
    assert (Hinv : is_invalid_nonce e = false).
    { destruct (is_invalid_nonce e) eqn:E; [|done].
      apply is_invalid_nonce_spec in E. done. }
    rewrite Hinv, call_acknowledge_failure_run. cbn [snd log this].
    destruct (this w2). done.
Qed.

Lemma thrown_attempt_is_reconciled_witness :
  let r := create_market_order (Sample.rejecting 8 Sample.invalid_nonce_error)
             2 0 4 341754 false false (-1) (-1) (Sample.world 3 3 8) in
  r.1 = Returns (None, None, Some "invalid nonce"%string)
  /\ log r.2 = [Call_next_nonce (3, 8); Native_SwitchAPIKey 3;
                Native_SignCreateOrder (mkOrder 2 0 4 341754 0 1 0 0 0 0) 8;
                Api_sendTx 14 "{}"; Call_hard_refresh_nonce 3; Api_nextNonce 410044 3]
  /\ counter (nonce_manager (this r.2)) 3 = 8.
Proof.
  set (env := Sample.rejecting 8 Sample.invalid_nonce_error).
  set (func := create_order_func env 2 0 4 341754 false 1 0 false 0 0).
  set (w := Sample.world 3 3 8).
  set (w0 := (call_next_nonce w).2).
  set (w1 := (switch_api_key env 3 w0).2).
  set (w2 := (func 8 3 w1).2).
  assert (Hstart : attempt_starts env (-1) (-1) w 3 8 w1).
  { apply (starts_managed env w 3 8 w0 w1); vm_compute; reflexivity. }
  assert (Hfunc : func 8 3 w1 = (Throws Sample.invalid_nonce_error, w2))
    by (vm_compute; reflexivity).
  destruct (thrown_attempt_is_reconciled env Json func (-1) (-1) w 3 8 w1
              Sample.invalid_nonce_error w2 Hstart Hfunc) as (Hret & _ & _ & Hrefresh & _).
  destruct Hrefresh as [Hlog Hmgr]; [reflexivity | eexists; split; reflexivity |].
  intros r. split; [exact Hret|]. split; [exact Hlog|].
  change (counter (nonce_manager
            (this (process_api_key_and_nonce env func (-1) (-1) w).2)) 3 = 8).
  rewrite Hmgr. vm_compute. reflexivity.
Defined.

(** ** Orders *)

Section Orders.

Context (env : Env).

(** The signing function of [create_order] when the native signer reports
    an error. *)
Lemma create_order_func_sign_error
    market_index client_order_index base_amount price (is_ask : bool) order_type
    time_in_force (reduce_only : bool) trigger_price order_expiry n ak w signed msg :
  let order := mkOrder market_index client_order_index base_amount price
                 (if is_ask then 1 else 0) order_type time_in_force
                 (if reduce_only then 1 else 0) trigger_price order_expiry in
  SignCreateOrder env (log w) order n = Some signed ->
  truthy (err signed) = Some msg ->
  create_order_func env market_index client_order_index base_amount price is_ask
    order_type time_in_force reduce_only trigger_price order_expiry n ak w
  = (Returns (None, None, Some msg),
     mkWorld (this w) (log w ++ [Native_SignCreateOrder order n])).
Proof.
  intros order Hsign Herr.
  unfold create_order_func, sign_create_order, mbind, M_bind, get_log, emit.
  fold order. rewrite Hsign. cbn [extractStrOrErr str err].
  unfold mret, M_ret. cbv beta iota. by rewrite truthy_idemp, Herr.
Qed.

(** The signing function of [create_order] when the transaction is signed
    and the API answers it with the body [resp]. *)
Lemma create_order_func_answered
    market_index client_order_index base_amount price (is_ask : bool) order_type
    time_in_force (reduce_only : bool) trigger_price order_expiry n ak w signed tx resp json :
  let order := mkOrder market_index client_order_index base_amount price
                 (if is_ask then 1 else 0) order_type time_in_force
                 (if reduce_only then 1 else 0) trigger_price order_expiry in
  SignCreateOrder env (log w) order n = Some signed ->
  truthy (err signed) = None ->
  truthy (str signed) = Some tx ->
  char_at_0 tx = Some "{"%char ->
  sendTx env (log w ++ [Native_SignCreateOrder order n]) TX_TYPE_CREATE_ORDER tx
    = Returns resp ->
  JSON_parse env tx = Returns json ->
  create_order_func env market_index client_order_index base_amount price is_ask
    order_type time_in_force reduce_only trigger_price order_expiry n ak w
  = (Returns (Some json, Some resp, None),
     mkWorld (this w)
       (log w ++ [Native_SignCreateOrder order n; Api_sendTx TX_TYPE_CREATE_ORDER tx])).
Proof.
  intros order Hsign Herr Hstr Hchar Hsend Hjson.
  unfold create_order_func, sign_create_order, mbind, M_bind, get_log, emit.
  fold order. rewrite Hsign. cbn [extractStrOrErr str err].
  unfold mret, M_ret. cbv beta iota. rewrite !truthy_idemp, Herr, Hstr.
  unfold send_tx, from_json. rewrite decide_False by (rewrite Hchar; intros H; by apply H).
  unfold mbind, M_bind, get_log, emit. cbv beta iota. cbn [log this].
  rewrite Hsend, Hjson. unfold mret, M_ret. cbv beta iota. by rewrite <- app_assoc.
Qed.

(** What the signing function of [create_order] does first is to ask the
    native signer for a signature, with the nonce it was given. *)
Lemma create_order_func_log
    market_index client_order_index base_amount price (is_ask : bool) order_type
    time_in_force (reduce_only : bool) trigger_price order_expiry n ak w :
  exists rest,
    log (create_order_func env market_index client_order_index base_amount price
           is_ask order_type time_in_force reduce_only trigger_price order_expiry
           n ak w).2
    = log w
      ++ Native_SignCreateOrder
           (mkOrder market_index client_order_index base_amount price
              (if is_ask then 1 else 0) order_type time_in_force
              (if reduce_only then 1 else 0) trigger_price order_expiry) n
         :: rest.
Proof.
  unfold create_order_func, sign_create_order, mbind, M_bind, get_log, emit.
  unfold mret, M_ret. cbv beta iota. cbn [log this fst snd].
  destruct (truthy (err (extractStrOrErr _))); [by exists []|].
  destruct (truthy (str (extractStrOrErr _))) as [tx|]; [|by exists []].
  unfold send_tx, from_json. case_decide; [by exists []|].
  unfold mbind, M_bind, get_log, emit, throw, mret, M_ret. cbv beta iota. cbn [log this].
  destruct (sendTx env _ _ _); cbv beta iota; cbn [snd log];
    [|eexists; by rewrite <- app_assoc].
  destruct (JSON_parse env tx); cbv beta iota; cbn [snd log];
    eexists; by rewrite <- app_assoc.
Qed.

End Orders.

(** ** Slot and nonce, explicit or managed *)

(** C9. A submission called with an explicit slot and an explicit nonce,
    both at least 0, rolls the counter of that slot back when its attempt
    fails, though the manager issued nothing: whenever the signing function
    returns an error without a response, or a response whose code is not
    200, the wrapper calls [acknowledge_failure] on the slot supplied, which
    takes one off a positive counter. For [create_order] this is so when the
    native signer reports an error, and when the API answers with another
    code than 200. *)
Theorem explicit_failure_rolls_back
    (env : Env) (api_key_index nonce : Z) (w : World) :
  0 <= api_key_index ->
  0 <= nonce ->
  truthy (SwitchAPIKey env (log w) api_key_index) = None ->
  let w1 := mkWorld (this w) (log w ++ [Native_SwitchAPIKey api_key_index]) in
  (forall (T : Type) (func : Z -> Z -> M (Result T)) created ret err w2,
     func nonce api_key_index w1 = (Returns (created, ret, err), w2) ->
     (ret = None /\ is_Some (truthy err))
     \/ (exists resp, ret = Some resp /\ code resp <> CODE_OK) ->
     let r := process_api_key_and_nonce env func api_key_index nonce w in
     r.1 = Returns (created, ret, err)
     /\ log r.2 = log w2 ++ [Call_acknowledge_failure api_key_index]
     /\ nonce_manager (this r.2)
        = acknowledge_failure api_key_index (nonce_manager (this w2))
     /\ (0 < counter (nonce_manager (this w2)) api_key_index ->
         counter (nonce_manager (this r.2)) api_key_index
         = counter (nonce_manager (this w2)) api_key_index - 1))
  /\ (forall market_index client_order_index base_amount price (is_ask : bool)
        order_type time_in_force (reduce_only : bool) trigger_price order_expiry,
      let order := mkOrder market_index client_order_index base_amount price
                     (if is_ask then 1 else 0) order_type time_in_force
                     (if reduce_only then 1 else 0) trigger_price order_expiry in
      let r := create_order env market_index client_order_index base_amount price
                 is_ask order_type time_in_force reduce_only trigger_price
                 order_expiry nonce api_key_index w in
      (forall signed msg,
         SignCreateOrder env (log w1) order nonce = Some signed ->
         truthy (err signed) = Some msg ->
         r.1 = Returns (None, None, Some msg)
         /\ log r.2 = log w ++ [Native_SwitchAPIKey api_key_index;
                                Native_SignCreateOrder order nonce;
                                Call_acknowledge_failure api_key_index]
         /\ nonce_manager (this r.2)
            = acknowledge_failure api_key_index (nonce_manager (this w)))
      /\ (forall signed tx resp json,
            SignCreateOrder env (log w1) order nonce = Some signed ->
            truthy (err signed) = None ->
            truthy (str signed) = Some tx ->
            char_at_0 tx = Some "{"%char ->
            sendTx env (log w1 ++ [Native_SignCreateOrder order nonce])
              TX_TYPE_CREATE_ORDER tx = Returns resp ->
            JSON_parse env tx = Returns json ->
            code resp <> CODE_OK ->
            r.1 = Returns (Some json, Some resp, None)
            /\ log r.2 = log w ++ [Native_SwitchAPIKey api_key_index;
                                   Native_SignCreateOrder order nonce;
                                   Api_sendTx TX_TYPE_CREATE_ORDER tx;
                                   Call_acknowledge_failure api_key_index]
            /\ nonce_manager (this r.2)
               = acknowledge_failure api_key_index (nonce_manager (this w)))).
Proof.
  intros Hk Hn Hswitch w1.
  assert (Hstart : attempt_starts env api_key_index nonce w api_key_index nonce w1).
  { apply starts_explicit; [lia|]. by rewrite switch_api_key_run, Hswitch. }
  assert (Hgen : forall (T : Type) (func : Z -> Z -> M (Result T)) created ret err w2,
     func nonce api_key_index w1 = (Returns (created, ret, err), w2) ->
     (ret = None /\ is_Some (truthy err))
     \/ (exists resp, ret = Some resp /\ code resp <> CODE_OK) ->
     process_api_key_and_nonce env func api_key_index nonce w
     = (Returns (created, ret, err),
        mkWorld (with_manager (acknowledge_failure api_key_index (nonce_manager (this w2)))
                   (this w2))
                (log w2 ++ [Call_acknowledge_failure api_key_index]))).
  { intros T func created ret err w2 Hfunc Hfail.
    rewrite (process_after_start env func _ _ _ _ _ _ Hstart), Hfunc.
    unfold Spec.settled. cbn [fst snd].
    assert (Hf : attempt_failed ret err = true).
    { unfold attempt_failed. destruct Hfail as [[-> Herr]|(resp & -> & Hcode)].
      - by rewrite !bool_decide_eq_true_2.
      - rewrite (bool_decide_eq_true_2 (code resp <> CODE_OK)) by done.
        apply orb_true_r. }
    by rewrite Hf. }
  split.
  - intros T func created ret err w2 Hfunc Hfail r. subst r.
    rewrite (Hgen T func created ret err w2 Hfunc Hfail). cbn [fst snd log this].
    destruct (this w2) as [? ? ? ? ? ? ? m2]. cbn [nonce_manager with_manager].
    split_and!; [done|done|done|].
    intros Hpos. rewrite acknowledge_failure_counter by lia. lia.
  - intros market_index client_order_index base_amount price is_ask order_type
      time_in_force reduce_only trigger_price order_expiry order r. split.
    + intros signed msg Hsign Herr. subst r. unfold create_order.
      erewrite Hgen.
      2:{ by apply (create_order_func_sign_error env) with (signed := signed). }
      2:{ left. split; [done|]. rewrite <- Herr, truthy_idemp, Herr. eauto. }
      cbn [fst snd log this w1]. destruct (this w) as [? ? ? ? ? ? ? m].
      cbn [nonce_manager with_manager].
      split_and!; [done|by rewrite <- !app_assoc|done].
    + intros signed tx resp json Hsign Herr Hstr Hchar Hsend Hjson Hcode.
      subst r. unfold create_order.
      erewrite Hgen.
      2:{ by apply (create_order_func_answered env) with (signed := signed). }
      2:{ right. by exists resp. }
      cbn [fst snd log this w1]. destruct (this w) as [? ? ? ? ? ? ? m].
      cbn [nonce_manager with_manager].
      split_and!; [done|by rewrite <- !app_assoc|done].
Qed.

Lemma explicit_failure_rolls_back_witness :
  let r := create_order (Sample.unsigning 8) 2 0 4 341754 false 0 1 false 0 (-1) 5 3
             (Sample.world 3 3 8) in
  r.1 = Returns (None, None, Some "invalid signature"%string)
  /\ log r.2 = [Native_SwitchAPIKey 3;
                Native_SignCreateOrder (mkOrder 2 0 4 341754 0 0 1 0 0 (-1)) 5;
                Call_acknowledge_failure 3]
  /\ counter (nonce_manager (this (Sample.world 3 3 8))) 3 = 8
  /\ counter (nonce_manager (this r.2)) 3 = 7.
Proof.
  pose proof (explicit_failure_rolls_back (Sample.unsigning 8) 3 5 (Sample.world 3 3 8))
    as H.
  destruct H as [_ H]; [lia | lia | vm_compute; reflexivity |].
  destruct (H 2 0 4 341754 false 0 1 false 0 (-1)) as [Hsign _].
  destruct (Hsign (mkStrOrErr None (Some "invalid signature"%string))
              "invalid signature"%string)
    as (Hret & Hlog & Hmgr); [vm_compute; reflexivity | vm_compute; reflexivity |].
  intros r. split; [exact Hret|]. split; [exact Hlog|].
  split; [vm_compute; reflexivity|].
  subst r. rewrite Hmgr. vm_compute. reflexivity.
Defined.

Lemma process_managed (env : Env) (T : Type) (func : Z -> Z -> M (Result T)) (w : World) :
  let issued := (next_nonce (nonce_manager (this w))).1 in
  let w0 := mkWorld (with_manager (next_nonce (nonce_manager (this w))).2 (this w))
              (log w ++ [Call_next_nonce issued]) in
  let w1 := mkWorld (this w0) (log w0 ++ [Native_SwitchAPIKey issued.1]) in
  process_api_key_and_nonce env func (-1) (-1) w
  = match truthy (SwitchAPIKey env (log w0) issued.1) with
    | Some err => (Throws (new_Error ("error switching api key: " ++ err)), w1)
    | None => Spec.settled env issued.1 (func issued.2 issued.1 w1)
    end.
Proof.
  intros issued w0 w1.
  destruct (truthy (SwitchAPIKey env (log w0) issued.1)) as [err|] eqn:Hswitch.
  - unfold process_api_key_and_nonce. rewrite decide_True by done.
    unfold mbind at 1, M_bind at 1. rewrite call_next_nonce_run.
    fold issued. fold w0. destruct issued as [k n] eqn:Hissued. cbn [fst snd] in *.
    unfold mbind at 1, M_bind at 1. rewrite switch_api_key_run.
    by rewrite truthy_idemp, Hswitch.
  - apply process_after_start. apply (starts_managed env w issued.1 issued.2 w0 w1).
    + rewrite call_next_nonce_run. fold issued. by destruct issued.
    + by rewrite switch_api_key_run, Hswitch.
Qed.

Lemma process_explicit (env : Env) (T : Type) (func : Z -> Z -> M (Result T))
    (api_key_index nonce : Z) (w : World) :
  ~ (api_key_index = -1 /\ nonce = -1) ->
  let w1 := mkWorld (this w) (log w ++ [Native_SwitchAPIKey api_key_index]) in
  process_api_key_and_nonce env func api_key_index nonce w
  = match truthy (SwitchAPIKey env (log w) api_key_index) with
    | Some err => (Throws (new_Error ("error switching api key: " ++ err)), w1)
    | None => Spec.settled env api_key_index (func nonce api_key_index w1)
    end.
Proof.
  intros Hnot w1.
  destruct (truthy (SwitchAPIKey env (log w) api_key_index)) as [err|] eqn:Hswitch.
  - unfold process_api_key_and_nonce. rewrite decide_False by done.
    unfold mbind at 1, M_bind at 1. cbn [mret M_ret].
    unfold mbind at 1, M_bind at 1. rewrite switch_api_key_run.
    by rewrite truthy_idemp, Hswitch.
  - apply process_after_start. apply starts_explicit; [done|].
    by rewrite switch_api_key_run, Hswitch.
Qed.

(** C10. The wrapper asks the manager for a slot and a nonce when both
    arguments are -1, and then switches to the slot the manager gave. In
    every other case it asks the manager nothing: it switches the native
    signer to [api_key_index] as supplied and runs the signing function on
    [nonce] and [api_key_index] as supplied, in a world where nothing but
    the switch has happened. So a market order with the nonce 7 and the slot
    -1, on a client whose only slot is 3, switches the native signer to the
    key -1 and leaves the manager as it was, whereas [get_api_key_nonce]
    answers with the slot 3 on these arguments. *)
Theorem manager_consulted_only_when_both_auto
    (env : Env) (T : Type) (func : Z -> Z -> M (Result T))
    (api_key_index nonce : Z) (w : World) :
  (api_key_index = -1 /\ nonce = -1 ->
   let issued := (next_nonce (nonce_manager (this w))).1 in
   let w0 := mkWorld (with_manager (next_nonce (nonce_manager (this w))).2 (this w))
               (log w ++ [Call_next_nonce issued]) in
   let w1 := mkWorld (this w0) (log w0 ++ [Native_SwitchAPIKey issued.1]) in
   process_api_key_and_nonce env func api_key_index nonce w
   = match truthy (SwitchAPIKey env (log w0) issued.1) with
     | Some err => (Throws (new_Error ("error switching api key: " ++ err)), w1)
     | None => Spec.settled env issued.1 (func issued.2 issued.1 w1)
     end)
  /\ (~ (api_key_index = -1 /\ nonce = -1) ->
      let w1 := mkWorld (this w) (log w ++ [Native_SwitchAPIKey api_key_index]) in
      process_api_key_and_nonce env func api_key_index nonce w
      = match truthy (SwitchAPIKey env (log w) api_key_index) with
        | Some err => (Throws (new_Error ("error switching api key: " ++ err)), w1)
        | None => Spec.settled env api_key_index (func nonce api_key_index w1)
        end)
  /\ (let r := create_market_order (Sample.agreeable 8) 2 0 4 341754 false false 7 (-1)
                 (Sample.world 3 3 8) in
      log r.2 = [Native_SwitchAPIKey (-1);
                 Native_SignCreateOrder (mkOrder 2 0 4 341754 0 1 0 0 0 0) 7;
                 Api_sendTx 14 "{}"]
      /\ this r.2 = this (Sample.world 3 3 8)
      /\ (get_api_key_nonce (-1) 7 (Sample.world 3 3 8)).1 = Returns (3, 8)).
Proof.
  split; [|split].
  - intros [-> ->]. apply process_managed.
  - apply process_explicit.
  - vm_compute. done.
Qed.

Lemma manager_consulted_only_when_both_auto_witness :
  process_api_key_and_nonce (Sample.agreeable 8)
    (create_order_func (Sample.agreeable 8) 2 0 4 341754 false 1 0 false 0 0)
    (-1) 7 (Sample.world 3 3 8)
  = Spec.settled (Sample.agreeable 8) (-1)
      (create_order_func (Sample.agreeable 8) 2 0 4 341754 false 1 0 false 0 0 7 (-1)
         (mkWorld (this (Sample.world 3 3 8)) [Native_SwitchAPIKey (-1)])).
Proof.
  refine (proj1 (proj2 (manager_consulted_only_when_both_auto (Sample.agreeable 8) Json
            (create_order_func (Sample.agreeable 8) 2 0 4 341754 false 1 0 false 0 0)
            (-1) 7 (Sample.world 3 3 8))) _).
  intros [_ H]. lia.
Defined.

Lemma settled_log {T} env k (attempt : outcome (Result T) * World) :
  exists rest, log (Spec.settled env k attempt).2 = log attempt.2 ++ rest.
Proof.
  destruct attempt as [[r|e] w2]; unfold Spec.settled; cbn [snd].
  - destruct (attempt_failed _ _).
    + rewrite call_acknowledge_failure_run. by eexists.
    + exists []. by rewrite app_nil_r.
  - destruct (is_invalid_nonce e).
    + rewrite call_hard_refresh_nonce_run. by eexists.
    + rewrite call_acknowledge_failure_run. by eexists.
Qed.

(** C8. A market order placed with the nonce -1 and the slot -1 takes its
    slot and its nonce from [next_nonce] of the manager, switches the native
    signer to that slot and, the switch reporting no error, has the native
    signer sign a create-order transaction of type MARKET, time in force
    IMMEDIATE_OR_CANCEL, trigger price 0 and expiry 0, with the nonce the
    manager gave; when the switch reports an error nothing is signed. With
    the manager at slot 3 and nonce 8 the order is signed with the nonce 8
    and sent as a transaction of type 14. *)
Theorem create_market_order_signs_market_ioc
    (env : Env) (market_index client_order_index base_amount avg_execution_price : Z)
    (is_ask reduce_only : bool) (w : World) :
  let issued := (next_nonce (nonce_manager (this w))).1 in
  let order := mkOrder market_index client_order_index base_amount avg_execution_price
                 (if is_ask then 1 else 0) ORDER_TYPE_MARKET
                 ORDER_TIME_IN_FORCE_IMMEDIATE_OR_CANCEL
                 (if reduce_only then 1 else 0) 0 0 in
  let r := create_market_order env market_index client_order_index base_amount
             avg_execution_price is_ask reduce_only (-1) (-1) w in
  (truthy (SwitchAPIKey env (log w ++ [Call_next_nonce issued]) issued.1) = None ->
   exists rest,
     log r.2 = log w ++ [Call_next_nonce issued; Native_SwitchAPIKey issued.1;
                         Native_SignCreateOrder order issued.2] ++ rest)
  /\ (forall err,
        truthy (SwitchAPIKey env (log w ++ [Call_next_nonce issued]) issued.1) = Some err ->
        r.1 = Throws (new_Error ("error switching api key: " ++ err))
        /\ log r.2 = log w ++ [Call_next_nonce issued; Native_SwitchAPIKey issued.1])
  /\ (ORDER_TYPE_MARKET = 1 /\ ORDER_TIME_IN_FORCE_IMMEDIATE_OR_CANCEL = 0)
  /\ (let r8 := create_market_order (Sample.agreeable 8) 2 0 4 341754 false false (-1) (-1)
                  (Sample.world 3 3 8) in
      r8.1 = Returns (Some (JsonOf "{}"), Some (mkResp 200 "hash"), None)
      /\ log r8.2 = [Call_next_nonce (3, 8); Native_SwitchAPIKey 3;
                     Native_SignCreateOrder (mkOrder 2 0 4 341754 0 1 0 0 0 0) 8;
                     Api_sendTx 14 "{}"]).
Proof.
  intros issued order r.
  pose proof (process_managed env Json
    (create_order_func env market_index client_order_index base_amount
       avg_execution_price is_ask ORDER_TYPE_MARKET
       ORDER_TIME_IN_FORCE_IMMEDIATE_OR_CANCEL reduce_only NIL_TRIGGER_PRICE
       DEFAULT_IOC_EXPIRY) w) as H.
  cbv zeta in H. fold issued in H. cbn [log this] in H.
  split; [|split; [|split]].
  - intros Hswitch. subst r. unfold create_market_order, create_order.
    rewrite H, Hswitch.
    destruct (settled_log env issued.1
      (create_order_func env market_index client_order_index base_amount
         avg_execution_price is_ask ORDER_TYPE_MARKET
         ORDER_TIME_IN_FORCE_IMMEDIATE_OR_CANCEL reduce_only NIL_TRIGGER_PRICE
         DEFAULT_IOC_EXPIRY issued.2 issued.1
         (mkWorld (with_manager (next_nonce (nonce_manager (this w))).2 (this w))
            ((log w ++ [Call_next_nonce issued]) ++ [Native_SwitchAPIKey issued.1]))))
      as [rest2 Hrest2].
    rewrite Hrest2.
    destruct (create_order_func_log env market_index client_order_index base_amount
      avg_execution_price is_ask ORDER_TYPE_MARKET
      ORDER_TIME_IN_FORCE_IMMEDIATE_OR_CANCEL reduce_only NIL_TRIGGER_PRICE
      DEFAULT_IOC_EXPIRY issued.2 issued.1
      (mkWorld (with_manager (next_nonce (nonce_manager (this w))).2 (this w))
         ((log w ++ [Call_next_nonce issued]) ++ [Native_SwitchAPIKey issued.1])))
      as [rest1 Hrest1].
    rewrite Hrest1. cbn [log]. exists (rest1 ++ rest2).
    rewrite <- !app_assoc. done.
  - intros err Hswitch. subst r. unfold create_market_order, create_order.
    rewrite H, Hswitch. cbn [fst snd log]. split; [done|]. by rewrite <- app_assoc.
  - done.
  - vm_compute. done.
Qed.

Lemma create_market_order_signs_market_ioc_witness :
  exists rest,
    log (create_market_order (Sample.rejecting 8 Sample.network_error)
           2 0 4 341754 false false (-1) (-1) (Sample.world 3 3 8)).2
    = [Call_next_nonce (3, 8); Native_SwitchAPIKey 3;
       Native_SignCreateOrder (mkOrder 2 0 4 341754 0 1 0 0 0 0) 8] ++ rest.
Proof.
  refine (proj1 (create_market_order_signs_market_ioc
            (Sample.rejecting 8 Sample.network_error) 2 0 4 341754 false false
            (Sample.world 3 3 8)) _).
  vm_compute. reflexivity.
Defined.

(** C2, on the code. With the nonce 7 and the slot -1, a client owning the
    slots 3 to 5 refuses with "ambiguous api key"; a client owning the slot 3
    only, whose manager is at the nonce 8, does not answer (3, 7): it answers
    what [next_nonce] gives, (3, 8), and the counter of the manager moves
    to 9. *)
Theorem explicit_nonce_replaced_by_managed :
  (get_api_key_nonce (-1) 7 (Sample.world 3 5 8)).1
  = Throws (new_Error "ambiguous api key")
  /\ (let r := get_api_key_nonce (-1) 7 (Sample.world 3 3 8) in
      r.1 = Returns (3, 8)
      /\ r.1 <> Returns (3, 7)
      /\ log r.2 = [Call_next_nonce (3, 8)]
      /\ counter (nonce_manager (this (Sample.world 3 3 8))) 3 = 8
      /\ counter (nonce_manager (this r.2)) 3 = 9).
Proof.
  split; [vm_compute; reflexivity|].
  split_and!; try (vm_compute; reflexivity).
  vm_compute. intros H. discriminate H.
Qed.

(** [get_api_key_nonce] with a nonce and no slot, in general. *)
Lemma get_api_key_nonce_explicit_nonce (nonce : Z) (w : World) :
  nonce <> -1 ->
  get_api_key_nonce (-1) nonce w
  = if decide (Signer.api_key_index (this w) = end_api_key_index (this w))
    then call_next_nonce w
    else (Throws (new_Error "ambiguous api key"), w).
Proof.
  intros Hn. unfold get_api_key_nonce.
  rewrite decide_False by (intros [H _]; by apply H).
  rewrite decide_True by done.
  unfold mbind, M_bind, get_this. by case_decide.
Qed.

(** * Further properties *)

(** ** Nonce manager: construction and initialisation *)

(** Writing the answers [answer i] of the API over the slots of a list
    without repetition: a slot of the list gets its answer when the answer
    carries a nonce, every other entry stays. *)
Lemma refresh_all_lookup (answer : Z -> Z -> NextNonceResp) (l : list Z) :
  NoDup l ->
  forall m k,
    nonces (foldl (fun m i => hard_refresh_nonce (answer (accountIndex m) i) i m) m l) !! k
    = match answer (accountIndex m) k with
      | Resolved (Some n) => if decide (k ∈ l) then Some n else nonces m !! k
      | _ => nonces m !! k
      end.
Proof.
  induction l as [|i l IH]; intros Hnd m k.
  - cbn [foldl]. destruct (answer _ k) as [|[n|]]; [done| |done].
    rewrite decide_False; [done|apply not_elem_of_nil].
  - apply NoDup_cons in Hnd as [Hi Hnd]. cbn [foldl]. rewrite IH by done.
    assert (Hacc : accountIndex (hard_refresh_nonce (answer (accountIndex m) i) i m)
                   = accountIndex m) by (by destruct (answer _ i) as [|[n|]]).
    rewrite Hacc.
    assert (Hother : k <> i ->
      nonces (hard_refresh_nonce (answer (accountIndex m) i) i m) !! k = nonces m !! k).
    { intros Hne. destruct (answer _ i) as [|[n|]]; [done| |done].
      cbn. by rewrite lookup_insert_ne. }
    destruct (decide (k = i)) as [->|Hne].
    + destruct (answer (accountIndex m) i) as [|[n|]] eqn:E; [done| |done].
      rewrite decide_False by done. rewrite decide_True by left.
      cbn. apply lookup_insert_eq.
    + rewrite Hother by done.
      destruct (answer (accountIndex m) k) as [|[n|]]; [done| |done].
      destruct (decide (k ∈ l)) as [Hin|Hnin].
      * rewrite decide_True; [done|by right].
      * rewrite decide_False; [done|]. intros Hin. apply elem_of_cons in Hin as [?|?]; done.
Qed.

Lemma elem_of_slot_range s e k : k ∈ slot_range s e <-> s <= k <= e.
Proof. unfold slot_range. rewrite elem_of_seqZ. lia. Qed.

(** X1. A new manager holds the counter 0 for every slot from the start slot
    to the end slot and nothing for any other slot, and its turn is at the
    start slot. *)
Theorem constructor_fresh (account s e k : Z) :
  nonces (constructor account s e) !! k = (if decide (s <= k <= e) then Some 0 else None)
  /\ counter (constructor account s e) k = 0
  /\ accountIndex (constructor account s e) = account
  /\ startApiKey (constructor account s e) = s
  /\ endApiKey (constructor account s e) = e
  /\ currentApiKey (constructor account s e) = s.
Proof.
  assert (Hl : nonces (constructor account s e) !! k
               = if decide (s <= k <= e) then Some 0 else None).
  { unfold constructor.
    pose proof (refresh_all_lookup (fun _ _ => Resolved (Some 0)) (slot_range s e)
                  (NoDup_seqZ _ _) (mkManager ∅ account s e s) k) as H.
    cbn beta iota in H. change (foldl _ _ _) with
      (foldl (fun m i => set_nonce i 0 m) (mkManager ∅ account s e s) (slot_range s e)) in H.
    rewrite H. cbn [nonces]. rewrite lookup_empty.
    destruct (decide (k ∈ slot_range s e)) as [Hin|Hnin].
    - rewrite decide_True; [done|by apply elem_of_slot_range].
    - rewrite decide_False; [done|]. intros H'. by apply Hnin, elem_of_slot_range. }
  split; [exact Hl|]. split.
  - unfold counter. rewrite Hl. by case_decide.
  - destruct (same_rotation_constructor account s e) as (Hs & He & Hc).
    assert (Ha : accountIndex (constructor account s e) = account).
    { unfold constructor. generalize (slot_range s e).
      assert (H : accountIndex (mkManager ∅ account s e s) = account) by done.
      revert H. generalize (mkManager ∅ account s e s).
      intros m Hm l. revert m Hm. induction l as [|i l IH]; intros m Hm; [done|].
      cbn [foldl]. by apply IH. }
    done.
Qed.

(** X2. [initialize] gives every slot from the start slot to the end slot
    the nonce the API answers for it; a slot whose request is rejected or
    answered without a nonce keeps the counter it had, and so does every slot
    outside the range. The turn and the bounds do not move. *)
Theorem initialize_result (api : Z -> Z -> NextNonceResp) (m : OptimisticNonceManager)
    (k : Z) :
  nonces (initialize api m) !! k
  = (if decide (startApiKey m <= k <= endApiKey m) then
       match api (accountIndex m) k with
       | Resolved (Some n) => Some n
       | _ => nonces m !! k
       end
     else nonces m !! k)
  /\ same_rotation m (initialize api m).
Proof.
  split; [|apply same_rotation_initialize].
  unfold initialize. rewrite refresh_all_lookup by apply NoDup_seqZ.
  destruct (decide (k ∈ slot_range (startApiKey m) (endApiKey m))) as [Hin|Hnin].
  - rewrite decide_True by (by apply elem_of_slot_range). done.
  - rewrite decide_False by (intros H; by apply Hnin, elem_of_slot_range).
    by destruct (api _ k) as [|[n|]].
Qed.

(** ** Nonce manager: the turn, rollbacks and refreshes *)

Lemma issue_length n : forall m, length (issue n m).1 = n.
Proof.
  induction n as [|n IH]; intros m; [done|].
  rewrite issue_S. cbn [fst length]. by rewrite IH.
Qed.

(** X3. The turn of a manager never leaves the range of its slots: when it
    is within the range, every slot handed out by a run of [next_nonce]
    calls is within the range, and so is the turn the run leaves. *)
Theorem turn_stays_in_range (m : OptimisticNonceManager) (n : nat) :
  startApiKey m <= currentApiKey m <= endApiKey m ->
  (forall (i : nat) k v, (issue n m).1 !! i = Some (k, v) ->
     startApiKey m <= k <= endApiKey m)
  /\ startApiKey m <= currentApiKey (issue n m).2 <= endApiKey m
  /\ startApiKey (issue n m).2 = startApiKey m
  /\ endApiKey (issue n m).2 = endApiKey m.
Proof.
  intros Hr. split.
  - intros i k v Hi.
    assert (Hlt : (i < n)%nat).
    { apply lookup_lt_Some in Hi. by rewrite issue_length in Hi. }
    pose proof (issue_slot n m i Hr Hlt) as Hs. rewrite Hi in Hs. cbn in Hs.
    injection Hs as ->.
    pose proof (Z.mod_pos_bound (currentApiKey m - startApiKey m + Z.of_nat i)
                  (endApiKey m - startApiKey m + 1)). lia.
  - revert m Hr. induction n as [|n IH]; intros m Hr; [done|].
    rewrite issue_S. cbn [snd].
    pose proof (next_nonce_spec m) as H. destruct (next_nonce m) as [p m1].
    destruct H as (_ & _ & _ & _ & Hs1 & He1 & Hc1). cbn [snd].
    destruct (IH m1) as (H1 & H2 & H3).
    + rewrite Hs1, He1, Hc1. case_decide; lia.
    + rewrite <- Hs1, <- He1. done.
Qed.

Lemma turn_stays_in_range_witness :
  3 <= currentApiKey (issue 5 (constructor 1 3 5)).2 <= 5.
Proof.
  refine (proj1 (proj2 (turn_stays_in_range (constructor 1 3 5) 5 _))).
  vm_compute. split; discriminate.
Defined.

(** X4. No counter of a manager is ever negative: from a new manager, through
    any sequence of [next_nonce], [acknowledge_failure] and
    [hard_refresh_nonce] calls, the API answering nonces that are not
    negative, every slot reads a counter of at least 0. *)
Theorem counters_never_negative (account s e : Z) (m : OptimisticNonceManager) :
  rtc manager_step (constructor account s e) m ->
  forall k, 0 <= counter m k.
Proof. apply counters_not_negative_reachable. Qed.

Lemma counters_never_negative_witness :
  0 <= counter (acknowledge_failure 3 (acknowledge_failure 3
                 (next_nonce (constructor 1 3 3)).2)) 3.
Proof.
  apply (counters_never_negative 1 3 3).
  eapply rtc_l; [apply step_next_nonce|].
  eapply rtc_l; [apply (step_acknowledge_failure _ 3)|].
  eapply rtc_l; [apply (step_acknowledge_failure _ 3)|].
  apply rtc_refl.
Defined.

Lemma acknowledge_failure_frame m k :
  (forall k', k' <> k -> nonces (acknowledge_failure k m) !! k' = nonces m !! k')
  /\ same_rotation m (acknowledge_failure k m).
Proof.
  split.
  - intros k' Hne. unfold acknowledge_failure. case_decide; [|done].
    cbn. by rewrite lookup_insert_ne.
  - unfold acknowledge_failure. by case_decide.
Qed.

(** X5. [acknowledge_failure] and [hard_refresh_nonce] on a slot leave the
    entry of every other slot, the turn and the bounds as they were. *)
Theorem rollback_and_refresh_are_local (m : OptimisticNonceManager) (k : Z)
    (resp : NextNonceResp) :
  (forall k', k' <> k -> nonces (acknowledge_failure k m) !! k' = nonces m !! k')
  /\ same_rotation m (acknowledge_failure k m)
  /\ (forall k', k' <> k -> nonces (hard_refresh_nonce resp k m) !! k' = nonces m !! k')
  /\ same_rotation m (hard_refresh_nonce resp k m).
Proof.
  destruct (acknowledge_failure_frame m k) as [Hothers Hrot].
  split_and!; [exact Hothers|exact Hrot| |apply same_rotation_hard_refresh].
  intros k' Hne. destruct resp as [|[n|]]; [done| |done]. cbn. by rewrite lookup_insert_ne.
Qed.

Lemma next_nonce_sole_slot m :
  startApiKey m = endApiKey m ->
  currentApiKey m = startApiKey m ->
  (next_nonce m).1 = (startApiKey m, counter m (startApiKey m))
  /\ counter (next_nonce m).2 (startApiKey m) = counter m (startApiKey m) + 1
  /\ startApiKey (next_nonce m).2 = startApiKey m
  /\ endApiKey (next_nonce m).2 = endApiKey m
  /\ currentApiKey (next_nonce m).2 = startApiKey m.
Proof.
  intros Hse Hc. pose proof (next_nonce_spec m) as H.
  destruct (next_nonce m) as [p m1]. destruct H as (-> & H1 & _ & _ & Hs & He & Hn).
  cbn [fst snd]. rewrite Hc in *. split_and!; [done|done|done|done|].
  rewrite Hn. case_decide; [done|lia].
Qed.

(** X6. A rollback can hand a nonce out twice. On a manager of one slot
    whose counter is [K], not negative, two calls of [next_nonce] hand out
    [K] and [K + 1]; after [acknowledge_failure] for the first of them, the
    next call hands out [K + 1] again, the nonce of the second. *)
Theorem rollback_reissues_nonce_in_flight (m : OptimisticNonceManager) :
  startApiKey m = endApiKey m ->
  currentApiKey m = startApiKey m ->
  0 <= counter m (startApiKey m) ->
  let s := startApiKey m in
  let K := counter m s in
  let m1 := (next_nonce m).2 in
  let m2 := (next_nonce m1).2 in
  let m3 := acknowledge_failure s m2 in
  (next_nonce m).1 = (s, K)
  /\ (next_nonce m1).1 = (s, K + 1)
  /\ (next_nonce m3).1 = (s, K + 1).
Proof.
  intros Hse Hc HK s K m1 m2 m3. subst s K.
  destruct (next_nonce_sole_slot m Hse Hc) as (H1 & Hc1 & Hs1 & He1 & Hn1).
  fold m1 in Hc1, Hs1, He1, Hn1.
  destruct (next_nonce_sole_slot m1) as (H2 & Hc2 & Hs2 & He2 & Hn2);
    [congruence|congruence|].
  fold m2 in Hc2, Hs2, He2, Hn2.
  destruct (acknowledge_failure_frame m2 (startApiKey m)) as (_ & (Hs3 & He3 & Hn3)).
  fold m3 in Hs3, He3, Hn3.
  destruct (next_nonce_sole_slot m3) as (H3 & _); [congruence|congruence|].
  split; [exact H1|]. split; [rewrite H2; congruence|].
  rewrite H3, Hs3, Hs2, Hs1. f_equal. subst m3.
  rewrite acknowledge_failure_counter by (rewrite <- Hs1, Hc2, Hs1; lia).
  rewrite <- Hs1, Hc2, Hs1. lia.
Qed.

Lemma rollback_reissues_nonce_in_flight_witness :
  (next_nonce (next_nonce (constructor 1 3 3)).2).1 = (3, 1)
  /\ (next_nonce (acknowledge_failure 3
        (next_nonce (next_nonce (constructor 1 3 3)).2).2)).1 = (3, 1).
Proof.
  refine (proj2 (rollback_reissues_nonce_in_flight (constructor 1 3 3) _ _ _));
    vm_compute; [reflexivity | reflexivity | discriminate].
Defined.

(** X7. A run of [next_nonce] calls hands each slot consecutive nonces: the
    nonces handed out for a slot, in order, are its counter before the run,
    that counter plus one, and so on without a gap, and the run leaves the
    counter of the slot at the next of them. *)
Theorem issuance_has_no_gap (n : nat) (m : OptimisticNonceManager) (k : Z) :
  let for_k := filter (fun p : Z * Z => p.1 = k) (issue n m).1 in
  for_k.*2 = seqZ (counter m k) (Z.of_nat (length for_k))
  /\ counter (issue n m).2 k = counter m k + Z.of_nat (length for_k).
Proof.
  revert m. induction n as [|n IH]; intros m for_k.
  - subst for_k. cbn. split; [done|lia].
  - subst for_k. rewrite issue_S. cbn [fst snd].
    pose proof (next_nonce_spec m) as H. destruct (next_nonce m) as [p m1].
    destruct H as (-> & Hc & Ho & _). cbn [fst snd].
    destruct (IH m1) as [IH1 IH2].
    destruct (decide (currentApiKey m = k)) as [<-|Hne].
    + rewrite filter_cons_True by done. cbn [length fmap list_fmap snd].
      rewrite IH1, IH2, Hc. split; [|lia].
      rewrite (seqZ_cons (counter m (currentApiKey m))) by lia.
      f_equal. f_equal; lia.
    + rewrite filter_cons_False by done.
      assert (Hk : counter m1 k = counter m k).
      { unfold counter. rewrite Ho; [done|congruence]. }
      rewrite IH1, IH2, Hk. done.
Qed.

(** ** Construction of the client *)

(** X8. [are_keys_equal] is an equivalence on keys that does not see a [0x]
    prefix: it holds of a key and itself, in both directions or in none,
    through a third key, and of a key that has no prefix and that key with
    the prefix put before it. *)
Theorem are_keys_equal_equivalence (key1 key2 key3 : string) :
  are_keys_equal key1 key1 = true
  /\ are_keys_equal key1 key2 = are_keys_equal key2 key1
  /\ (are_keys_equal key1 key2 = true -> are_keys_equal key2 key3 = true ->
      are_keys_equal key1 key3 = true)
  /\ (startsWith "0x" key1 = false ->
      are_keys_equal (String "0" (String "x" key1)) key1 = true
      /\ are_keys_equal key1 (String "0" (String "x" key1)) = true).
Proof.
  split_and!.
  - by apply are_keys_equal_spec.
  - destruct (are_keys_equal key1 key2) eqn:E12, (are_keys_equal key2 key1) eqn:E21;
      [done| |  |done].
    + apply are_keys_equal_spec in E12. symmetry in E12.
      apply are_keys_equal_spec in E12. congruence.
    + apply are_keys_equal_spec in E21. symmetry in E21.
      apply are_keys_equal_spec in E21. congruence.
  - intros H12 H23. apply are_keys_equal_spec in H12, H23.
    apply are_keys_equal_spec. congruence.
  - intros Hno.
    assert (H : Spec.without_0x (String "0" (String "x" key1)) = Spec.without_0x key1).
    { unfold Spec.without_0x at 2. rewrite Hno. unfold Spec.without_0x, startsWith.
      cbn. by destruct key1. }
    split; apply are_keys_equal_spec; [exact H|by symmetry].
Qed.

Lemma are_keys_equal_equivalence_witness :
  are_keys_equal "0xab" "ab" = true.
Proof.
  refine (proj1 (proj2 (proj2 (proj2 (are_keys_equal_equivalence "ab" "ab" "ab"))) _)).
  vm_compute. reflexivity.
Defined.

(** A map holding exactly the slots from [start_key] to [end_key] has
    [end_key - start_key + 1] entries. *)
Lemma size_of_keys_from (start_key end_key : Z) (private_keys : gmap Z string) :
  start_key <= end_key ->
  (forall k, is_Some (private_keys !! k) <-> (start_key <= k <= end_key)) ->
  Z.of_nat (size private_keys) = end_key - start_key + 1.
Proof.
  intros Hse Hdom.
  assert (Hd : dom private_keys = list_to_set (seqZ start_key (end_key - start_key + 1))).
  { apply set_eq. intros k. rewrite elem_of_dom, elem_of_list_to_set, elem_of_seqZ, Hdom. lia. }
  rewrite <- size_dom, Hd, size_list_to_set by apply NoDup_seqZ.
  rewrite length_seqZ. lia.
Qed.

(** X9. For a map of private keys of one of the two documented shapes (a key
    for every slot but the initial one; or a key for every slot, the initial
    one being the primary key up to the prefix) the validation passes and the
    dictionary built from it has a key for every slot of the range: the
    primary key at the initial slot in the first shape, the map as it is in
    the second. *)
Theorem consistent_keys_cover_every_slot (start_key end_key : Z) (primary : string)
    (private_keys : gmap Z string) :
  start_key <= end_key ->
  Spec.keys_consistent start_key end_key primary private_keys ->
  let dict := build_api_key_dict start_key end_key primary private_keys in
  validate_api_private_keys start_key end_key primary private_keys = Returns tt
  /\ (forall k, is_Some (dict !! k) <-> (start_key <= k <= end_key))
  /\ (exists key, dict !! start_key = Some key
                  /\ Spec.without_0x key = Spec.without_0x primary)
  /\ (forall k, k <> start_key -> dict !! k = private_keys !! k).
Proof.
  intros Hse [Hafter|(Hfrom & key & Hkey & Heq)] dict; subst dict.
  - pose proof (size_of_keys_after _ _ _ Hse Hafter) as Hsize.
    unfold build_api_key_dict. rewrite decide_True by done.
    split; [by apply validate_keys_after|]. split_and!.
    + intros k. rewrite lookup_insert_is_Some, Hafter.
      split.
      * intros [<-|[_ H]]; lia.
      * intros H. destruct (decide (start_key = k)); [by left|right; split; [done|lia]].
    + exists primary. by rewrite lookup_insert_eq.
    + intros k Hk. by rewrite lookup_insert_ne.
  - pose proof (size_of_keys_from _ _ _ Hse Hfrom) as Hsize.
    unfold build_api_key_dict. rewrite decide_False by lia.
    split_and!; [|done|by exists key|done].
    unfold validate_api_private_keys. rewrite decide_True by done. rewrite Hkey.
    assert (H : are_keys_equal key primary = true) by (by apply are_keys_equal_spec).
    by rewrite H.
Qed.

Lemma consistent_keys_cover_every_slot_witness :
  build_api_key_dict 0 2 "aa" (<[1 := "bb"]> (<[2 := "cc"]> ∅)) !! 2 = Some "cc"%string
  /\ is_Some (build_api_key_dict 0 2 "aa" (<[1 := "bb"]> (<[2 := "cc"]> ∅)) !! 0).
Proof.
  assert (Hshape : Spec.keys_consistent 0 2 "aa" (<[1 := "bb"]> (<[2 := "cc"]> ∅))).
  { left. intros k. rewrite !lookup_insert_is_Some, lookup_empty.
    split.
    - intros [<-|[_ [<-|[_ H]]]]; [lia|lia|]. by destruct H.
    - intros H. destruct (decide (1 = k)) as [->|]; [by left|].
      right. split; [done|]. left. lia. }
  destruct (consistent_keys_cover_every_slot 0 2 "aa"
              (<[1 := "bb"]> (<[2 := "cc"]> ∅)) ltac:(lia) Hshape)
    as (_ & Hall & _ & Hothers).
  split.
  - rewrite Hothers by lia. vm_compute. reflexivity.
  - apply Hall. lia.
Defined.

Section Construction.

Context (env : Env).

Lemma create_clients_all c keys :
  (forall l k, k ∈ keys -> truthy (CreateClient env l (url c) (api_key_dict c !! k) (chain_id c) k
                (account_index c)) = None) ->
  forall l0,
    for_each (create_client env) keys (mkWorld c l0)
    = (Returns tt, mkWorld c (l0 ++ ((fun k => Native_CreateClient (url c) (api_key_dict c !! k) (chain_id c) k
                        (account_index c)) <$> keys))).
Proof.
  induction keys as [|k keys IH]; intros Hok l0.
  - cbn. by rewrite app_nil_r.
  - cbn [for_each]. unfold mbind at 1, M_bind at 1.
    unfold create_client, mbind, M_bind, get_this, get_log, emit. cbn [this log].
    rewrite Hok by left. unfold mret, M_ret.
    rewrite IH by (intros l k' Hk'; apply Hok; by right).
    cbn [fmap list_fmap]. by rewrite <- app_assoc.
Qed.

Lemma create_clients_until c before k0 after err :
  (forall l k, k ∈ before -> truthy (CreateClient env l (url c) (api_key_dict c !! k) (chain_id c) k
                (account_index c)) = None) ->
  (forall l, truthy (CreateClient env l (url c) (api_key_dict c !! k0) (chain_id c) k0
                       (account_index c)) = Some err) ->
  forall l0,
    for_each (create_client env) (before ++ k0 :: after) (mkWorld c l0)
    = (Throws (new_Error err),
       mkWorld c (l0 ++ ((fun k => Native_CreateClient (url c) (api_key_dict c !! k) (chain_id c) k
                        (account_index c)) <$> (before ++ [k0])))).
Proof.
  induction before as [|k before IH]; intros Hok Herr l0.
  - cbn [app for_each]. unfold mbind at 1, M_bind at 1.
    unfold create_client, mbind, M_bind, get_this, get_log, emit. cbn [this log].
    by rewrite Herr.
  - cbn [app for_each]. unfold mbind at 1, M_bind at 1.
    unfold create_client, mbind, M_bind, get_this, get_log, emit. cbn [this log].
    rewrite Hok by left. unfold mret, M_ret.
    change (for_each (create_client env) (before ++ k0 :: after)
              (mkWorld c (l0 ++ [Native_CreateClient (url c) (api_key_dict c !! k) (chain_id c) k
                                 (account_index c)]))
            = (Throws (new_Error err),
               mkWorld c (l0 ++ ((fun k => Native_CreateClient (url c) (api_key_dict c !! k) (chain_id c) k
                        (account_index c)) <$> ((k :: before) ++ [k0]))))).
    rewrite IH; [|intros l k' Hk'; apply Hok; by right|done].
    cbn [app fmap list_fmap]. by rewrite <- app_assoc.
Qed.

(** X10. When the validation of the private keys passes, the manager is the
    optimistic one and the native signer reports no error for any slot of the
    range, the constructor returns a client with the chain 304 for an URL
    containing "mainnet" and 300 otherwise, the primary key without its
    prefix, the dictionary of keys, and a new nonce manager with every
    counter at 0; it has created one native client per slot, in the order of
    the slots, each with the key of its slot. *)
Theorem construction_creates_a_client_per_slot
    (url private_key : string) (api_key_index account_index : Z)
    (options : SignerClientOptions) :
  let chain_id := if includes "mainnet" url then 304 else 300 in
  let key := Spec.without_0x private_key in
  let end_index := if decide (max_api_key_index options = -1) then api_key_index
                   else max_api_key_index options in
  let dict := build_api_key_dict api_key_index end_index key (private_keys options) in
  let c := mkClient url key chain_id api_key_index end_index dict account_index
             (constructor account_index api_key_index end_index) in
  validate_api_private_keys api_key_index end_index key (private_keys options)
    = Returns tt ->
  nonce_management_type options = OPTIMISTIC ->
  (forall l k, api_key_index <= k <= end_index ->
     truthy (CreateClient env l url (dict !! k) chain_id k account_index) = None) ->
  new_SignerClient env url private_key api_key_index account_index options
  = (Returns c,
     (fun k => Native_CreateClient url (dict !! k) chain_id k account_index)
       <$> slot_range api_key_index end_index).
Proof.
  intros chain_id key end_index dict c Hvalid Htype Hok.
  unfold new_SignerClient. fold chain_id. fold end_index.
  unfold Spec.without_0x in key. fold key. rewrite Hvalid, Htype.
  cbn [nonce_manager_factory]. fold dict. fold c.
  rewrite (create_clients_all c).
  - done.
  - intros l k Hk. apply elem_of_slot_range in Hk. by apply Hok.
Qed.

(** X11. The constructor stops at the first slot for which the native signer
    reports an error: it throws that error, has created the native clients
    of the slots before it and of that slot, and creates none for the slots
    after it. *)
Theorem construction_stops_at_first_refusal
    (url private_key : string) (api_key_index account_index : Z)
    (options : SignerClientOptions) (before after : list Z) (k0 : Z) (err : string) :
  let chain_id := if includes "mainnet" url then 304 else 300 in
  let key := Spec.without_0x private_key in
  let end_index := if decide (max_api_key_index options = -1) then api_key_index
                   else max_api_key_index options in
  let dict := build_api_key_dict api_key_index end_index key (private_keys options) in
  validate_api_private_keys api_key_index end_index key (private_keys options)
    = Returns tt ->
  nonce_management_type options = OPTIMISTIC ->
  slot_range api_key_index end_index = before ++ k0 :: after ->
  (forall l k, k ∈ before ->
     truthy (CreateClient env l url (dict !! k) chain_id k account_index) = None) ->
  (forall l, truthy (CreateClient env l url (dict !! k0) chain_id k0 account_index)
             = Some err) ->
  new_SignerClient env url private_key api_key_index account_index options
  = (Throws (new_Error err),
     (fun k => Native_CreateClient url (dict !! k) chain_id k account_index)
       <$> (before ++ [k0])).
Proof.
  intros chain_id key end_index dict Hvalid Htype Hrange Hok Herr.
  unfold new_SignerClient. fold chain_id. fold end_index.
  unfold Spec.without_0x in key. fold key. rewrite Hvalid, Htype.
  cbn [nonce_manager_factory]. fold dict. rewrite Hrange.
  by rewrite (create_clients_until _ before k0 after err).
Qed.

End Construction.

Lemma construction_creates_a_client_per_slot_witness :
  (new_SignerClient (Sample.agreeable 0) "https://mainnet.zklighter.elliot.ai" "0xaa" 0 7
     (mkOptions 2 (<[1 := "bb"]> (<[2 := "cc"]> ∅)) OPTIMISTIC)).2
  = [Native_CreateClient "https://mainnet.zklighter.elliot.ai" (Some "aa") 304 0 7;
     Native_CreateClient "https://mainnet.zklighter.elliot.ai" (Some "bb") 304 1 7;
     Native_CreateClient "https://mainnet.zklighter.elliot.ai" (Some "cc") 304 2 7].
Proof.
  rewrite (construction_creates_a_client_per_slot (Sample.agreeable 0)
             "https://mainnet.zklighter.elliot.ai" "0xaa" 0 7
             (mkOptions 2 (<[1 := "bb"]> (<[2 := "cc"]> ∅)) OPTIMISTIC)).
  - vm_compute. reflexivity.
  - vm_compute. reflexivity.
  - reflexivity.
  - intros l k Hk. reflexivity.
Defined.

Lemma construction_stops_at_first_refusal_witness :
  new_SignerClient (Sample.refusing_slot 0 1) "url" "aa" 0 7
    (mkOptions 2 (<[1 := "bb"]> (<[2 := "cc"]> ∅)) OPTIMISTIC)
  = (Throws (new_Error "invalid private key"),
     [Native_CreateClient "url" (Some "aa") 300 0 7;
      Native_CreateClient "url" (Some "bb") 300 1 7]).
Proof.
  rewrite (construction_stops_at_first_refusal (Sample.refusing_slot 0 1) "url" "aa" 0 7
             (mkOptions 2 (<[1 := "bb"]> (<[2 := "cc"]> ∅)) OPTIMISTIC)
             [0] [2] 1 "invalid private key").
  - vm_compute. reflexivity.
  - vm_compute. reflexivity.
  - reflexivity.
  - vm_compute. reflexivity.
  - intros l k Hk. apply list_elem_of_singleton in Hk. subst k. reflexivity.
  - intros l. reflexivity.
Defined.

(** X12. Two configurations are refused before any client is created in
    the native signer. A last slot below the initial one (other than the value -1, which
    stands for the initial slot itself) is refused for any map of private
    keys, with "unexpected number of private keys" unless the map is empty
    and the last slot is just below the initial one. A manager type other
    than the optimistic one is refused, once the keys are validated, with
    "Unsupported nonce manager type". *)
Theorem construction_refuses_bad_configuration
    (env : Env) (url private_key : string) (api_key_index account_index : Z)
    (options : SignerClientOptions) :
  (max_api_key_index options <> -1 ->
   max_api_key_index options < api_key_index ->
   new_SignerClient env url private_key api_key_index account_index options
   = (Throws (if decide (private_keys options = ∅
                         /\ max_api_key_index options = api_key_index - 1)
              then TypeError_undefined "startsWith"
              else new_Error "unexpected number of private keys"), []))
  /\ (validate_api_private_keys api_key_index
        (if decide (max_api_key_index options = -1) then api_key_index
         else max_api_key_index options)
        (Spec.without_0x private_key) (private_keys options) = Returns tt ->
      nonce_management_type options = PESSIMISTIC ->
      new_SignerClient env url private_key api_key_index account_index options
      = (Throws (new_Error "Unsupported nonce manager type: pessimistic"), [])).
Proof.
  split.
  - intros Hmax Hlt. unfold new_SignerClient. rewrite (decide_False (P := _ = -1)) by done.
    unfold validate_api_private_keys.
    destruct (decide (private_keys options = ∅ /\ max_api_key_index options = api_key_index - 1))
      as [[Hempty Heq]|Hnot].
    + rewrite Hempty, map_size_empty, lookup_empty. rewrite decide_True by lia. done.
    + rewrite decide_False.
      * rewrite decide_True by lia. done.
      * intros Hsize. apply Hnot. split; [|lia].
        apply map_size_empty_inv. lia.
  - intros Hvalid Htype. unfold new_SignerClient.
    unfold Spec.without_0x in Hvalid. rewrite Hvalid, Htype. done.
Qed.

Lemma construction_refuses_bad_configuration_witness :
  new_SignerClient (Sample.agreeable 0) "url" "aa" 3 7 (mkOptions 1 ∅ OPTIMISTIC)
  = (Throws (new_Error "unexpected number of private keys"), []).
Proof.
  rewrite (proj1 (construction_refuses_bad_configuration (Sample.agreeable 0) "url" "aa" 3 7
                    (mkOptions 1 ∅ OPTIMISTIC))).
  - rewrite decide_False; [reflexivity|]. intros [_ H]. vm_compute in H. discriminate H.
  - vm_compute. discriminate.
  - vm_compute. reflexivity.
Defined.

(** ** Checking the client *)

Lemma check_client_loop_all CheckClient c keys :
  (forall k, k ∈ keys -> truthy (CheckClient k (account_index c)) = None) ->
  check_client_loop CheckClient c keys = None.
Proof.
  induction keys as [|k keys IH]; intros Hok; [done|].
  cbn [check_client_loop]. rewrite Hok by left. apply IH. intros k' Hk'. apply Hok. by right.
Qed.

Lemma check_client_loop_first CheckClient c before k0 after result :
  (forall k, k ∈ before -> truthy (CheckClient k (account_index c)) = None) ->
  truthy (CheckClient k0 (account_index c)) = Some result ->
  check_client_loop CheckClient c (before ++ k0 :: after)
  = Some (result ++ " on api key " ++ pretty (Signer.api_key_index c))%string.
Proof.
  induction before as [|k before IH]; intros Hok Herr.
  - cbn [app check_client_loop]. by rewrite Herr.
  - cbn [app check_client_loop]. rewrite Hok by left. apply IH; [|done].
    intros k' Hk'. apply Hok. by right.
Qed.

(** X13. [check_client] answers null exactly when the native check reports
    no error for any slot of the range. Otherwise it answers the error of the
    first slot whose check reports one, followed by " on api key " and the
    index of the initial slot of the client, whichever slot that was. *)
Theorem check_client_reports_first_error
    (CheckClient : Z -> Z -> option string) (c : SignerClient) :
  (check_client CheckClient c = None <->
   forall k, Signer.api_key_index c <= k <= end_api_key_index c ->
             truthy (CheckClient k (account_index c)) = None)
  /\ (forall before k0 after result,
        slot_range (Signer.api_key_index c) (end_api_key_index c) = before ++ k0 :: after ->
        (forall k, k ∈ before -> truthy (CheckClient k (account_index c)) = None) ->
        truthy (CheckClient k0 (account_index c)) = Some result ->
        check_client CheckClient c
        = Some (result ++ " on api key " ++ pretty (Signer.api_key_index c))%string).
Proof.
  split.
  - unfold check_client. split.
    + intros Hnone k Hk. apply elem_of_slot_range in Hk. revert Hnone Hk.
      generalize (slot_range (Signer.api_key_index c) (end_api_key_index c)).
      intros keys. induction keys as [|k' keys IH]; intros Hnone Hk.
      * by apply elem_of_nil in Hk.
      * cbn [check_client_loop] in Hnone.
        destruct (truthy (CheckClient k' (account_index c))) eqn:E; [done|].
        apply elem_of_cons in Hk as [->|Hk]; [done|by apply IH].
    + intros Hok. apply check_client_loop_all. intros k Hk.
      apply Hok. by apply elem_of_slot_range.
  - intros before k0 after result Hrange Hok Herr. unfold check_client.
    rewrite Hrange. by apply check_client_loop_first.
Qed.

Lemma check_client_reports_first_error_witness :
  check_client (fun k _ => if decide (k = 4) then Some "api key not found"%string else None)
    (Sample.client 3 5 0)
  = Some "api key not found on api key 3"%string.
Proof.
  refine (proj2 (check_client_reports_first_error _ (Sample.client 3 5 0))
            [3] 4 [5] "api key not found"%string _ _ _).
  - vm_compute. reflexivity.
  - intros k Hk. apply list_elem_of_singleton in Hk. subst k. reflexivity.
  - reflexivity.
Defined.

(** ** Submissions: what an attempt leaves behind *)

Section Attempts.

Context (env : Env).

(** The signing function of [create_order], case by case. *)
Lemma create_order_func_run
    market_index client_order_index base_amount price (is_ask : bool) order_type
    time_in_force (reduce_only : bool) trigger_price order_expiry n ak w :
  let order := mkOrder market_index client_order_index base_amount price
                 (if is_ask then 1 else 0) order_type time_in_force
                 (if reduce_only then 1 else 0) trigger_price order_expiry in
  let signed := extractStrOrErr (SignCreateOrder env (log w) order n) in
  let w1 := mkWorld (this w) (log w ++ [Native_SignCreateOrder order n]) in
  create_order_func env market_index client_order_index base_amount price is_ask
    order_type time_in_force reduce_only trigger_price order_expiry n ak w
  = match truthy (err signed) with
    | Some error => (Returns (None, None, Some error), w1)
    | None =>
        match truthy (str signed) with
        | None => (Returns (None, None, Some "No transaction info"%string), w1)
        | Some tx =>
            if decide (char_at_0 tx <> Some "{"%char) then (Throws (new_Error tx), w1)
            else
              let w2 := mkWorld (this w)
                          (log w ++ [Native_SignCreateOrder order n;
                                     Api_sendTx TX_TYPE_CREATE_ORDER tx]) in
              match sendTx env (log w1) TX_TYPE_CREATE_ORDER tx with
              | Throws e => (Throws e, w2)
              | Returns resp =>
                  match JSON_parse env tx with
                  | Throws e => (Throws e, w2)
                  | Returns json => (Returns (Some json, Some resp, None), w2)
                  end
              end
        end
    end.
Proof.
  intros order signed w1.
  unfold create_order_func, sign_create_order, mbind, M_bind, get_log, emit.
  fold order. fold signed. unfold mret, M_ret. cbv beta iota. fold w1.
  destruct (truthy (err signed)); [done|].
  destruct (truthy (str signed)) as [tx|]; [|done].
  unfold send_tx, from_json. case_decide; [done|].
  unfold mbind, M_bind, get_log, emit, throw, mret, M_ret. cbv beta iota. cbn [log this w1].
  rewrite <- app_assoc. cbn [app].
  destruct (sendTx env _ _ _); cbv beta iota; [|reflexivity].
  destruct (JSON_parse env tx); reflexivity.
Qed.

Lemma Returns_eq {A} (a b : A) : Returns a = Returns b -> a = b.
Proof. intros H. by injection H. Qed.

Lemma attempt_starts_managed w k n w1 :
  attempt_starts env (-1) (-1) w k n w1 ->
  (k, n) = (next_nonce (nonce_manager (this w))).1
  /\ this w1 = with_manager (next_nonce (nonce_manager (this w))).2 (this w)
  /\ log w1 = log w ++ [Call_next_nonce (k, n); Native_SwitchAPIKey k].
Proof.
  intros H. inversion H as [? ? ? w0 ? Hnext Hswitch|? ? ? ? Hnot]; subst.
  - rewrite call_next_nonce_run in Hnext.
    pose proof (Returns_eq _ _ (f_equal fst Hnext)) as Hp.
    pose proof (f_equal snd Hnext) as Hw0. cbn [snd] in Hw0.
    rewrite switch_api_key_run in Hswitch.
    pose proof (f_equal snd Hswitch) as Hw1. cbn [snd] in Hw1.
    subst w1 w0. cbn [this log]. rewrite Hp.
    split_and!; [done|done|]. by rewrite <- app_assoc.
  - by destruct Hnot.
Qed.

Lemma attempt_starts_switched aki nonce w k n w1 :
  attempt_starts env aki nonce w k n w1 ->
  exists l0, log w1 = l0 ++ [Native_SwitchAPIKey k].
Proof.
  intros H. destruct H as [w k n w0 w1 Hnext Hswitch|aki nonce w w1 Hnot Hswitch];
    rewrite switch_api_key_run in Hswitch;
    pose proof (f_equal snd Hswitch) as Hw1; cbn [snd] in Hw1; subst w1; by eexists.
Qed.

End Attempts.

Lemma managed_start (env : Env) w :
  let issued := (next_nonce (nonce_manager (this w))).1 in
  truthy (SwitchAPIKey env (log w ++ [Call_next_nonce issued]) issued.1) = None ->
  attempt_starts env (-1) (-1) w issued.1 issued.2
    (mkWorld (with_manager (next_nonce (nonce_manager (this w))).2 (this w))
       (log w ++ [Call_next_nonce issued; Native_SwitchAPIKey issued.1])).
Proof.
  intros issued Hswitch.
  apply (starts_managed env w issued.1 issued.2
           (mkWorld (with_manager (next_nonce (nonce_manager (this w))).2 (this w))
              (log w ++ [Call_next_nonce issued]))).
  - rewrite call_next_nonce_run. fold issued. by destruct issued.
  - rewrite switch_api_key_run. cbn [this log]. rewrite Hswitch.
    by rewrite <- app_assoc.
Qed.

(** X14. An order placed with the nonce -1 and the slot -1 that the API
    accepts with the code 200 uses up exactly one nonce: the method returns
    the parsed order and the answer of the API without an error, the counter
    of the slot is the nonce used plus one, and after the call to the API the
    manager is called no more. *)
Theorem accepted_order_consumes_one_nonce (env : Env)
    (market_index client_order_index base_amount price : Z) (is_ask : bool)
    (order_type time_in_force : Z) (reduce_only : bool) (trigger_price order_expiry : Z)
    (w : World) (signed : StrOrErr) (tx : string) (resp : RespSendTx) (json : Json) :
  let issued := (next_nonce (nonce_manager (this w))).1 in
  let order := mkOrder market_index client_order_index base_amount price
                 (if is_ask then 1 else 0) order_type time_in_force
                 (if reduce_only then 1 else 0) trigger_price order_expiry in
  let l1 := log w ++ [Call_next_nonce issued; Native_SwitchAPIKey issued.1] in
  truthy (SwitchAPIKey env (log w ++ [Call_next_nonce issued]) issued.1) = None ->
  SignCreateOrder env l1 order issued.2 = Some signed ->
  truthy (err signed) = None ->
  truthy (str signed) = Some tx ->
  char_at_0 tx = Some "{"%char ->
  sendTx env (l1 ++ [Native_SignCreateOrder order issued.2]) TX_TYPE_CREATE_ORDER tx
    = Returns resp ->
  code resp = CODE_OK ->
  JSON_parse env tx = Returns json ->
  let r := create_order env market_index client_order_index base_amount price is_ask
             order_type time_in_force reduce_only trigger_price order_expiry (-1) (-1) w in
  r.1 = Returns (Some json, Some resp, None)
  /\ log r.2 = l1 ++ [Native_SignCreateOrder order issued.2;
                      Api_sendTx TX_TYPE_CREATE_ORDER tx]
  /\ nonce_manager (this r.2) = (next_nonce (nonce_manager (this w))).2
  /\ counter (nonce_manager (this r.2)) issued.1 = issued.2 + 1.
Proof.
  intros issued order l1 Hswitch Hsign Herr Hstr Hchar Hsend Hcode Hjson r. subst r.
  unfold create_order.
  rewrite (process_after_start env _ _ _ _ _ _ _ (managed_start env w Hswitch)).
  fold issued. fold l1.
  rewrite (create_order_func_answered env) with (signed := signed) (tx := tx)
    (resp := resp) (json := json); try done.
  unfold Spec.settled. cbn [fst snd].
  assert (Hok : attempt_failed (Some resp) None = false).
  { unfold attempt_failed. cbn. by rewrite bool_decide_eq_false_2 by (intros H; by apply H). }
  rewrite Hok. cbn [fst snd log this].
  destruct (this w) as [? ? ? ? ? ? ? m]. cbn [with_manager nonce_manager].
  split_and!; [done|done|done|].
  subst issued. pose proof (next_nonce_spec m) as H. destruct (next_nonce m) as [p m1].
  destruct H as (-> & Hc & _). cbn [fst snd]. exact Hc.
Qed.

Lemma accepted_order_consumes_one_nonce_witness :
  let r := create_order (Sample.agreeable 8) 2 0 4 341754 false 0 1 false 0 (-1) (-1) (-1)
             (Sample.world 3 3 8) in
  r.1 = Returns (Some (JsonOf "{}"), Some (mkResp 200 "hash"), None)
  /\ counter (nonce_manager (this r.2)) 3 = 9.
Proof.
  pose proof (accepted_order_consumes_one_nonce (Sample.agreeable 8)
                2 0 4 341754 false 0 1 false 0 (-1) (Sample.world 3 3 8)
                (mkStrOrErr (Some "{}"%string) None) "{}"%string (mkResp 200 "hash")
                (JsonOf "{}")) as H.
  destruct H as (Hret & _ & _ & Hcounter);
    [reflexivity|reflexivity|reflexivity|reflexivity|reflexivity|reflexivity|reflexivity
    |reflexivity|].
  intros r. split; [exact Hret|exact Hcounter].
Defined.

(** X15. When the native signer cannot switch to the slot the manager gave,
    a submission with the nonce -1 and the slot -1 throws "error switching
    api key", whatever it was to sign, and the nonce handed out is not given
    back: the counter of the slot stays one above it, and neither
    [acknowledge_failure] nor [hard_refresh_nonce] is called. *)
Theorem failed_switch_keeps_the_nonce_taken (env : Env)
    (T : Type) (func : Z -> Z -> M (Result T)) (w : World) (err : string) :
  let issued := (next_nonce (nonce_manager (this w))).1 in
  truthy (SwitchAPIKey env (log w ++ [Call_next_nonce issued]) issued.1) = Some err ->
  let r := process_api_key_and_nonce env func (-1) (-1) w in
  r.1 = Throws (new_Error ("error switching api key: " ++ err))
  /\ log r.2 = log w ++ [Call_next_nonce issued; Native_SwitchAPIKey issued.1]
  /\ nonce_manager (this r.2) = (next_nonce (nonce_manager (this w))).2
  /\ counter (nonce_manager (this r.2)) issued.1 = issued.2 + 1.
Proof.
  intros issued Hswitch r. subst r.
  pose proof (process_managed env T func w) as H. cbv zeta in H. fold issued in H.
  cbn [log this] in H. rewrite H, Hswitch. cbn [fst snd log this].
  destruct (this w) as [? ? ? ? ? ? ? m]. cbn [with_manager nonce_manager].
  split_and!; [done|by rewrite <- app_assoc|done|].
  subst issued. pose proof (next_nonce_spec m) as Hs. destruct (next_nonce m) as [p m1].
  destruct Hs as (-> & Hc & _). cbn [fst snd]. exact Hc.
Qed.

Lemma failed_switch_keeps_the_nonce_taken_witness :
  let r := create_market_order (Sample.unswitching 8) 2 0 4 341754 false false (-1) (-1)
             (Sample.world 3 3 8) in
  r.1 = Throws (new_Error "error switching api key: client is not created")
  /\ counter (nonce_manager (this r.2)) 3 = 9.
Proof.
  pose proof (failed_switch_keeps_the_nonce_taken (Sample.unswitching 8) Json
                (create_order_func (Sample.unswitching 8) 2 0 4 341754 false 1 0 false 0 0)
                (Sample.world 3 3 8) "client is not created"%string) as H.
  destruct H as (Hret & _ & _ & Hcounter); [reflexivity|].
  intros r. split; [exact Hret|exact Hcounter].
Defined.

Lemma truthy_Some_self o s : truthy o = Some s -> truthy (Some s) = Some s.
Proof. intros H. by rewrite <- H, truthy_idemp. Qed.

Lemma new_Error_not_invalid_nonce msg : is_invalid_nonce (new_Error msg) = false.
Proof. reflexivity. Qed.

Lemma acknowledge_run k w2 :
  nonce_manager (this (call_acknowledge_failure k w2).2)
  = acknowledge_failure k (nonce_manager (this w2))
  /\ log (call_acknowledge_failure k w2).2 = log w2 ++ [Call_acknowledge_failure k].
Proof. rewrite call_acknowledge_failure_run. cbn [snd this log]. by destruct (this w2). Qed.

(** X16. A signature that does not begin with an opening brace is never sent
    to the API: [create_order] returns it, reduced to its last line, as the
    error of the triple, and rolls the counter of the slot back. The log
    shows the signing and the rollback, and no call to the API. *)
Theorem malformed_payload_is_never_sent (env : Env)
    (market_index client_order_index base_amount price : Z) (is_ask : bool)
    (order_type time_in_force : Z) (reduce_only : bool) (trigger_price order_expiry : Z)
    (api_key_index nonce : Z) (w : World) (k n : Z) (w1 : World)
    (signed : StrOrErr) (tx : string) :
  let order := mkOrder market_index client_order_index base_amount price
                 (if is_ask then 1 else 0) order_type time_in_force
                 (if reduce_only then 1 else 0) trigger_price order_expiry in
  attempt_starts env api_key_index nonce w k n w1 ->
  SignCreateOrder env (log w1) order n = Some signed ->
  truthy (err signed) = None ->
  truthy (str signed) = Some tx ->
  char_at_0 tx <> Some "{"%char ->
  let r := create_order env market_index client_order_index base_amount price is_ask
             order_type time_in_force reduce_only trigger_price order_expiry
             nonce api_key_index w in
  r.1 = Returns (None, None, Some (trim_exc tx))
  /\ log r.2 = log w1 ++ [Native_SignCreateOrder order n; Call_acknowledge_failure k]
  /\ nonce_manager (this r.2) = acknowledge_failure k (nonce_manager (this w1)).
Proof.
  intros order Hstart Hsign Herr Hstr Hchar r. subst r. unfold create_order.
  rewrite (process_after_start env _ _ _ _ _ _ _ Hstart), create_order_func_run.
  fold order. rewrite Hsign. cbn [extractStrOrErr str err].
  rewrite !truthy_idemp, Herr, Hstr. rewrite decide_True by done.
  unfold Spec.settled. rewrite new_Error_not_invalid_nonce. cbn [fst snd].
  destruct (acknowledge_run k
              (mkWorld (this w1) (log w1 ++ [Native_SignCreateOrder order n]))) as [Hm Hl].
  rewrite Hm, Hl. cbn [this log].
  split_and!; [|by rewrite <- app_assoc|done].
  unfold error_text, or_else. cbn [message new_Error].
  by rewrite (truthy_Some_self _ _ Hstr).
Qed.

Lemma malformed_payload_is_never_sent_witness :
  let payload := Some (mkStrOrErr (Some "invalid order: price is too low"%string) None) in
  let r := create_order (Sample.signing_as 8 payload) 2 0 4 341754 false 0 1 false 0 (-1)
             (-1) (-1) (Sample.world 3 3 8) in
  r.1 = Returns (None, None, Some "invalid order: price is too low"%string)
  /\ log r.2 = [Call_next_nonce (3, 8); Native_SwitchAPIKey 3;
                Native_SignCreateOrder (mkOrder 2 0 4 341754 0 0 1 0 0 (-1)) 8;
                Call_acknowledge_failure 3].
Proof.
  intros payload.
  pose proof (malformed_payload_is_never_sent (Sample.signing_as 8 payload)
                2 0 4 341754 false 0 1 false 0 (-1) (-1) (-1) (Sample.world 3 3 8) 3 8
                _ (mkStrOrErr (Some "invalid order: price is too low"%string) None)
                "invalid order: price is too low"%string
                (managed_start (Sample.signing_as 8 payload) (Sample.world 3 3 8) eq_refl))
    as H.
  destruct H as (Hret & Hlog & _); [reflexivity|reflexivity|reflexivity| |].
  - vm_compute. intros H. discriminate H.
  - intros r. split; [exact Hret|exact Hlog].
Defined.

(** X17. When the native signer answers nothing usable, [create_order] says
    so in the error of the triple and rolls the counter of the slot back,
    without a call to the API: the error is "Null result returned" for a
    null answer, and "No transaction info" for an answer with neither a
    signature nor an error. *)
Theorem empty_signature_is_an_error (env : Env)
    (market_index client_order_index base_amount price : Z) (is_ask : bool)
    (order_type time_in_force : Z) (reduce_only : bool) (trigger_price order_expiry : Z)
    (api_key_index nonce : Z) (w : World) (k n : Z) (w1 : World) :
  let order := mkOrder market_index client_order_index base_amount price
                 (if is_ask then 1 else 0) order_type time_in_force
                 (if reduce_only then 1 else 0) trigger_price order_expiry in
  let r := create_order env market_index client_order_index base_amount price is_ask
             order_type time_in_force reduce_only trigger_price order_expiry
             nonce api_key_index w in
  attempt_starts env api_key_index nonce w k n w1 ->
  (SignCreateOrder env (log w1) order n = None ->
   r.1 = Returns (None, None, Some "Null result returned"%string)
   /\ log r.2 = log w1 ++ [Native_SignCreateOrder order n; Call_acknowledge_failure k]
   /\ nonce_manager (this r.2) = acknowledge_failure k (nonce_manager (this w1)))
  /\ (forall signed,
        SignCreateOrder env (log w1) order n = Some signed ->
        truthy (err signed) = None ->
        truthy (str signed) = None ->
        r.1 = Returns (None, None, Some "No transaction info"%string)
        /\ log r.2 = log w1 ++ [Native_SignCreateOrder order n; Call_acknowledge_failure k]
        /\ nonce_manager (this r.2) = acknowledge_failure k (nonce_manager (this w1))).
Proof.
  intros order r Hstart. subst r. unfold create_order.
  rewrite (process_after_start env _ _ _ _ _ _ _ Hstart), create_order_func_run.
  fold order.
  destruct (acknowledge_run k
              (mkWorld (this w1) (log w1 ++ [Native_SignCreateOrder order n]))) as [Hm Hl].
  cbn [this log] in Hm, Hl.
  split.
  - intros Hsign. rewrite Hsign. cbn [extractStrOrErr str err truthy].
    rewrite decide_False by done. unfold Spec.settled. cbn [fst snd].
    assert (Hf : attempt_failed None (Some "Null result returned"%string) = true)
      by reflexivity.
    rewrite Hf, Hm, Hl. split_and!; [done|by rewrite <- app_assoc|done].
  - intros signed Hsign Herr Hstr. rewrite Hsign. cbn [extractStrOrErr str err].
    rewrite !truthy_idemp, Herr, Hstr. unfold Spec.settled. cbn [fst snd].
    assert (Hf : attempt_failed None (Some "No transaction info"%string) = true)
      by reflexivity.
    rewrite Hf, Hm, Hl. split_and!; [done|by rewrite <- app_assoc|done].
Qed.

Lemma empty_signature_is_an_error_witness :
  let r := create_order (Sample.signing_as 8 None) 2 0 4 341754 false 0 1 false 0 (-1)
             (-1) (-1) (Sample.world 3 3 8) in
  r.1 = Returns (None, None, Some "Null result returned"%string)
  /\ counter (nonce_manager (this r.2)) 3 = 8.
Proof.
  pose proof (empty_signature_is_an_error (Sample.signing_as 8 None)
                2 0 4 341754 false 0 1 false 0 (-1) (-1) (-1) (Sample.world 3 3 8) 3 8
                _ (managed_start (Sample.signing_as 8 None) (Sample.world 3 3 8) eq_refl))
    as [H _].
  destruct H as (Hret & _ & Hmgr); [reflexivity|].
  intros r. split; [exact Hret|]. subst r. rewrite Hmgr. vm_compute. reflexivity.
Defined.

(** X18. The order is parsed after it is sent. When the API has taken the
    transaction, with whatever code, and the parsing of the signature then
    throws an error that is not a rejection of the nonce, [create_order]
    returns that error and no answer of the API, and rolls the counter of the
    slot back although the transaction was sent. *)
Theorem unparsable_order_is_rolled_back_after_sending (env : Env)
    (market_index client_order_index base_amount price : Z) (is_ask : bool)
    (order_type time_in_force : Z) (reduce_only : bool) (trigger_price order_expiry : Z)
    (api_key_index nonce : Z) (w : World) (k n : Z) (w1 : World)
    (signed : StrOrErr) (tx : string) (resp : RespSendTx) (e : Error) :
  let order := mkOrder market_index client_order_index base_amount price
                 (if is_ask then 1 else 0) order_type time_in_force
                 (if reduce_only then 1 else 0) trigger_price order_expiry in
  attempt_starts env api_key_index nonce w k n w1 ->
  SignCreateOrder env (log w1) order n = Some signed ->
  truthy (err signed) = None ->
  truthy (str signed) = Some tx ->
  char_at_0 tx = Some "{"%char ->
  sendTx env (log w1 ++ [Native_SignCreateOrder order n]) TX_TYPE_CREATE_ORDER tx
    = Returns resp ->
  JSON_parse env tx = Throws e ->
  response_status e <> Some 400 ->
  let r := create_order env market_index client_order_index base_amount price is_ask
             order_type time_in_force reduce_only trigger_price order_expiry
             nonce api_key_index w in
  r.1 = Returns (None, None, Some (trim_exc (error_text e)))
  /\ log r.2 = log w1 ++ [Native_SignCreateOrder order n;
                          Api_sendTx TX_TYPE_CREATE_ORDER tx;
                          Call_acknowledge_failure k]
  /\ nonce_manager (this r.2) = acknowledge_failure k (nonce_manager (this w1)).
Proof.
  intros order Hstart Hsign Herr Hstr Hchar Hsend Hjson Hstatus r. subst r.
  unfold create_order.
  rewrite (process_after_start env _ _ _ _ _ _ _ Hstart), create_order_func_run.
  fold order. rewrite Hsign. cbn [extractStrOrErr str err].
  rewrite !truthy_idemp, Herr, Hstr.
  rewrite decide_False by (rewrite Hchar; intros H; by apply H).
  cbn [log this]. rewrite Hsend, Hjson. cbv zeta.
  unfold Spec.settled.
  assert (Hinv : is_invalid_nonce e = false).
  { unfold is_invalid_nonce. by rewrite bool_decide_eq_false_2. }
  rewrite Hinv. cbn [fst snd].
  destruct (acknowledge_run k
              (mkWorld (this w1)
                 (log w1 ++ [Native_SignCreateOrder order n;
                             Api_sendTx TX_TYPE_CREATE_ORDER tx]))) as [Hm Hl].
  rewrite Hm, Hl. cbn [this log].
  split_and!; [done|by rewrite <- app_assoc|done].
Qed.

Lemma unparsable_order_is_rolled_back_after_sending_witness :
  let syntax_error := mkError None (Some "Unexpected end of JSON input"%string)
                        "SyntaxError: Unexpected end of JSON input" in
  let r := create_order (Sample.unparsable 8 syntax_error) 2 0 4 341754 false 0 1 false 0
             (-1) (-1) (-1) (Sample.world 3 3 8) in
  r.1 = Returns (None, None, Some "Unexpected end of JSON input"%string)
  /\ log r.2 = [Call_next_nonce (3, 8); Native_SwitchAPIKey 3;
                Native_SignCreateOrder (mkOrder 2 0 4 341754 0 0 1 0 0 (-1)) 8;
                Api_sendTx 14 "{}"; Call_acknowledge_failure 3].
Proof.
  intros syntax_error.
  pose proof (unparsable_order_is_rolled_back_after_sending
                (Sample.unparsable 8 syntax_error)
                2 0 4 341754 false 0 1 false 0 (-1) (-1) (-1) (Sample.world 3 3 8) 3 8
                _ (mkStrOrErr (Some "{}"%string) None) "{}"%string (mkResp 200 "hash")
                syntax_error
                (managed_start (Sample.unparsable 8 syntax_error) (Sample.world 3 3 8)
                   eq_refl)) as H.
  destruct H as (Hret & Hlog & _);
    [reflexivity|reflexivity|reflexivity|reflexivity|reflexivity|reflexivity| |].
  - vm_compute. intros H. discriminate H.
  - intros r. split; [exact Hret|exact Hlog].
Defined.

(** X19. After a rejection of the nonce (a thrown error of status 400 whose
    message contains "invalid nonce") the counter of the slot is the nonce
    the API answers to the refresh; when the refresh itself is rejected, or
    answered without a nonce, the counter stays what it was when the attempt
    threw, and no rollback is made. *)
Theorem rejected_nonce_is_refreshed_or_kept (env : Env) (T : Type)
    (func : Z -> Z -> M (Result T)) (api_key_index nonce : Z) (w : World) (k n : Z)
    (w1 : World) (e : Error) (w2 : World) :
  attempt_starts env api_key_index nonce w k n w1 ->
  func n k w1 = (Throws e, w2) ->
  is_invalid_nonce e = true ->
  let r := process_api_key_and_nonce env func api_key_index nonce w in
  let answer := nextNonce env (log w2 ++ [Call_hard_refresh_nonce k])
                  (accountIndex (nonce_manager (this w2))) k in
  (forall M, answer = Resolved (Some M) -> counter (nonce_manager (this r.2)) k = M)
  /\ (answer = Rejected \/ answer = Resolved None ->
      nonce_manager (this r.2) = nonce_manager (this w2))
  /\ Call_acknowledge_failure k ∉ drop (length (log w2)) (log r.2).
Proof.
  intros Hstart Hfunc Hinv r answer. subst r.
  rewrite (process_after_start env func _ _ _ _ _ _ Hstart), Hfunc.
  unfold Spec.settled. rewrite Hinv, call_hard_refresh_nonce_run. cbn [snd this log].
  fold answer. destruct (this w2) as [? ? ? ? ? ? ? m2] eqn:Hthis.
  cbn [with_manager nonce_manager]. split_and!.
  - intros M ->. apply counter_set_nonce_eq.
  - intros [->| ->]; done.
  - rewrite drop_app_length. intros Hin.
    apply elem_of_cons in Hin as [H|Hin]; [discriminate H|].
    apply elem_of_cons in Hin as [H|Hin]; [discriminate H|].
    by apply elem_of_nil in Hin.
Qed.

Lemma rejected_nonce_is_refreshed_or_kept_witness :
  let env := Sample.rejecting_unreachable Sample.invalid_nonce_error in
  let r := create_market_order env 2 0 4 341754 false false (-1) (-1)
             (Sample.world 3 3 8) in
  counter (nonce_manager (this r.2)) 3 = 9.
Proof.
  intros env.
  set (func := create_order_func env 2 0 4 341754 false 1 0 false 0 0).
  set (w := Sample.world 3 3 8).
  pose proof (rejected_nonce_is_refreshed_or_kept env Json func (-1) (-1) w 3 8 _
                Sample.invalid_nonce_error
                (func 8 3 (mkWorld (with_manager (next_nonce (nonce_manager (this w))).2
                                      (this w))
                             [Call_next_nonce (3, 8); Native_SwitchAPIKey 3])).2
                (managed_start env w eq_refl)) as H.
  destruct H as (_ & Hkept & _); [vm_compute; reflexivity|reflexivity|].
  intros r.
  change (counter (nonce_manager
            (this (process_api_key_and_nonce env func (-1) (-1) w).2)) 3 = 9).
  rewrite Hkept; [vm_compute; reflexivity|]. left. reflexivity.
Defined.

Lemma create_order_func_this (env : Env)
    market_index client_order_index base_amount price (is_ask : bool) order_type
    time_in_force (reduce_only : bool) trigger_price order_expiry n ak w :
  this (create_order_func env market_index client_order_index base_amount price is_ask
          order_type time_in_force reduce_only trigger_price order_expiry n ak w).2
  = this w.
Proof.
  rewrite create_order_func_run. cbv zeta.
  destruct (truthy (err _)); [done|].
  destruct (truthy (str _)); [|done].
  case_decide; [done|].
  destruct (sendTx env _ _ _); [|done]. by destruct (JSON_parse env _).
Qed.

(** X20. A failed order costs no nonce. When an order placed with the nonce
    -1 and the slot -1 fails otherwise than by a rejection of its nonce (its
    signing function returns a failure, or throws an error that is not such
    a rejection), every slot of the manager reads the same counter after the
    call as before it, the counter of the slot used being not negative; only
    the turn has moved on. *)
Theorem failed_managed_order_costs_no_nonce (env : Env)
    (market_index client_order_index base_amount price : Z) (is_ask : bool)
    (order_type time_in_force : Z) (reduce_only : bool) (trigger_price order_expiry : Z)
    (w : World) :
  let m := nonce_manager (this w) in
  let issued := (next_nonce m).1 in
  let w1 := mkWorld (with_manager (next_nonce m).2 (this w))
              (log w ++ [Call_next_nonce issued; Native_SwitchAPIKey issued.1]) in
  let attempt := create_order_func env market_index client_order_index base_amount price
                   is_ask order_type time_in_force reduce_only trigger_price order_expiry
                   issued.2 issued.1 w1 in
  0 <= counter m (currentApiKey m) ->
  truthy (SwitchAPIKey env (log w ++ [Call_next_nonce issued]) issued.1) = None ->
  match attempt.1 with
  | Returns (_, ret, err) => attempt_failed ret err = true
  | Throws e => is_invalid_nonce e = false
  end ->
  let r := create_order env market_index client_order_index base_amount price is_ask
             order_type time_in_force reduce_only trigger_price order_expiry (-1) (-1) w in
  (forall k, counter (nonce_manager (this r.2)) k = counter m k)
  /\ currentApiKey (nonce_manager (this r.2)) = currentApiKey (next_nonce m).2
  /\ last (log r.2) = Some (Call_acknowledge_failure issued.1).
Proof.
  intros m issued w1 attempt Hpos Hswitch Hfail r. subst r. unfold create_order.
  rewrite (process_after_start env _ _ _ _ _ _ _ (managed_start env w Hswitch)).
  fold m. fold issued. fold w1. fold attempt.
  assert (Hthis : this attempt.2 = this w1) by apply create_order_func_this.
  assert (Hsettled : (Spec.settled env issued.1 attempt).2
                     = (call_acknowledge_failure issued.1 attempt.2).2).
  { unfold Spec.settled.
    destruct attempt as [[[[c ret] err]|e] w2]; cbn [fst snd] in *.
    - by rewrite Hfail.
    - by rewrite Hfail. }
  rewrite Hsettled. destruct (acknowledge_run issued.1 attempt.2) as [Hm Hl].
  rewrite Hm, Hl, Hthis. subst w1. cbn [this].
  assert (Hmgr : nonce_manager (with_manager (next_nonce m).2 (this w)) = (next_nonce m).2)
    by (by destruct (this w)).
  rewrite Hmgr. subst issued.
  pose proof (next_nonce_spec m) as Hs. destruct (next_nonce m) as [p m1].
  destruct Hs as (-> & Hc & Ho & _). cbn [fst snd].
  destruct (acknowledge_failure_frame m1 (currentApiKey m)) as (Hothers & (_ & _ & Hturn)).
  split_and!.
  - intros k. destruct (decide (k = currentApiKey m)) as [->|Hne].
    + rewrite acknowledge_failure_counter by lia. lia.
    + unfold counter. rewrite Hothers by done. by rewrite Ho.
  - exact Hturn.
  - apply last_snoc.
Qed.

Lemma failed_managed_order_costs_no_nonce_witness :
  let r := create_order (Sample.rejecting 8 Sample.network_error)
             2 0 4 341754 false 0 1 false 0 (-1) (-1) (-1) (Sample.world 3 3 8) in
  counter (nonce_manager (this r.2)) 3
  = counter (nonce_manager (this (Sample.world 3 3 8))) 3.
Proof.
  refine (proj1 (failed_managed_order_costs_no_nonce
                   (Sample.rejecting 8 Sample.network_error)
                   2 0 4 341754 false 0 1 false 0 (-1) (Sample.world 3 3 8) _ _ _) 3).
  - vm_compute. discriminate.
  - reflexivity.
  - vm_compute. reflexivity.
Defined.

(** ** Error messages, again *)

Lemma string_app_assoc (a b c : string) : ((a ++ b) ++ c = a ++ (b ++ c))%string.
Proof.
  induction a as [|x a IH]; [done|].
  change (String x ((a ++ b) ++ c) = String x (a ++ (b ++ c)))%string. by rewrite IH.
Qed.

Lemma trimStart_empty s :
  trimStart s = EmptyString <-> forallb is_white_space (list_ascii_of_string s) = true.
Proof.
  induction s as [|c s IH]; [done|].
  cbn [trimStart list_ascii_of_string forallb].
  destruct (is_white_space c); [exact IH|]. split; intros H; discriminate H.
Qed.

Lemma trimStart_head s c r : trimStart s = String c r -> is_white_space c = false.
Proof.
  induction s as [|a s IH]; [done|]. cbn [trimStart].
  destruct (is_white_space a) eqn:E; [exact IH|]. intros H. by injection H as <- _.
Qed.

Lemma trimEnd_head c r : is_white_space c = false -> trimEnd (String c r) <> EmptyString.
Proof.
  intros H. cbn [trimEnd]. destruct (trimEnd r); [by rewrite H|done].
Qed.

Lemma trim_empty s :
  trim s = EmptyString <-> forallb is_white_space (list_ascii_of_string s) = true.
Proof.
  rewrite <- trimStart_empty. unfold trim. split.
  - intros H. destruct (trimStart s) as [|c r] eqn:E; [done|].
    apply trimStart_head in E. by apply (trimEnd_head c r) in E.
  - intros ->. done.
Qed.

(** X21. The text [trim_exc] returns holds no line break and does not end
    with white space; it is empty exactly when the text given is made of
    white space only, so that an error whose text is blank becomes an empty,
    falsy, error string. *)
Theorem trim_exc_shape (s : string) :
  (Spec.newline ∉ list_ascii_of_string (trim_exc s))
  /\ (forall before c, trim_exc s = (before ++ String c EmptyString)%string ->
        is_white_space c = false)
  /\ (trim_exc s = EmptyString
      <-> forallb is_white_space (list_ascii_of_string s) = true).
Proof.
  destruct (trim_exc_last_line s) as [Hno Hlast].
  split; [exact Hno|]. split.
  - intros before c Heq.
    destruct Hlast as [Ht|[pre Ht]].
    + apply (trimEnd_last_not_white (trimStart s) before c).
      fold (trim s). by rewrite Ht.
    + apply (trimEnd_last_not_white (trimStart s)
               (pre ++ String Spec.newline before)%string c).
      fold (trim s). rewrite Ht, Heq, string_app_assoc. done.
  - rewrite <- trim_empty. split.
    + intros Hempty. rewrite Hempty in Hlast. destruct Hlast as [Ht|[pre Ht]]; [done|].
      exfalso. unfold trim in Ht.
      by apply (trimEnd_last_not_white _ pre Spec.newline) in Ht.
    + intros Ht. unfold trim_exc. rewrite Ht. reflexivity.
Qed.

(** ** Slot and nonce resolution, again *)

(** X22. [get_api_key_nonce] with the nonce -1 does not look at the slot it
    is given: for any [api_key_index] it answers the slot in turn of the
    manager with the counter of that slot, and takes that nonce. With both a
    slot and a nonce given it answers them and leaves the manager alone. *)
Theorem get_api_key_nonce_ignores_slot_without_nonce
    (api_key_index nonce : Z) (w : World) :
  let m := nonce_manager (this w) in
  (get_api_key_nonce api_key_index (-1) w = call_next_nonce w
   /\ (get_api_key_nonce api_key_index (-1) w).1
      = Returns (currentApiKey m, counter m (currentApiKey m))
   /\ counter (nonce_manager (this (get_api_key_nonce api_key_index (-1) w).2))
        (currentApiKey m) = counter m (currentApiKey m) + 1)
  /\ (api_key_index <> -1 -> nonce <> -1 ->
      get_api_key_nonce api_key_index nonce w = (Returns (api_key_index, nonce), w)).
Proof.
  intros m. split.
  - assert (H : get_api_key_nonce api_key_index (-1) w = call_next_nonce w).
    { unfold get_api_key_nonce. rewrite decide_False by (intros [_ H]; by apply H).
      by rewrite decide_False by (intros H; by apply H). }
    rewrite H, call_next_nonce_run. cbn [fst snd this]. fold m.
    pose proof (next_nonce_spec m) as Hs. destruct (next_nonce m) as [p m1].
    destruct Hs as (-> & Hc & _). cbn [fst snd].
    split_and!; [done|done|]. by destruct (this w).
  - intros Hk Hn. unfold get_api_key_nonce. by rewrite decide_True.
Qed.

Lemma get_api_key_nonce_ignores_slot_without_nonce_witness :
  get_api_key_nonce 5 7 (Sample.world 3 5 8) = (Returns (5, 7), Sample.world 3 5 8).
Proof.
  refine (proj2 (get_api_key_nonce_ignores_slot_without_nonce 5 7 (Sample.world 3 5 8))
            _ _); lia.
Defined.

Lemma trim_exc_shape_witness :
  trim_exc (String " " (String "010" (String "009" EmptyString))) = EmptyString.
Proof.
  refine (proj2 (proj2 (proj2 (trim_exc_shape
            (String " " (String "010" (String "009" EmptyString)))))) _).
  vm_compute. reflexivity.
Defined.

Lemma rollback_and_refresh_are_local_witness :
  nonces (acknowledge_failure 3 (set_nonce 3 8 (constructor 1 3 5))) !! 4 = Some 0.
Proof.
  rewrite (proj1 (rollback_and_refresh_are_local (set_nonce 3 8 (constructor 1 3 5)) 3
                    Rejected)) by lia.
  vm_compute. reflexivity.
Defined.

(** ** Orders with a trigger *)

(** What [create_order] asks the native signer to sign, in either mode. *)
Lemma create_order_signs (env : Env)
    market_index client_order_index base_amount price (is_ask : bool) order_type
    time_in_force (reduce_only : bool) trigger_price order_expiry
    api_key_index nonce w k n w1 :
  attempt_starts env api_key_index nonce w k n w1 ->
  exists rest,
    log (create_order env market_index client_order_index base_amount price is_ask
           order_type time_in_force reduce_only trigger_price order_expiry
           nonce api_key_index w).2
    = log w1
      ++ Native_SignCreateOrder
           (mkOrder market_index client_order_index base_amount price
              (if is_ask then 1 else 0) order_type time_in_force
              (if reduce_only then 1 else 0) trigger_price order_expiry) n
         :: rest.
Proof.
  intros Hstart. unfold create_order.
  rewrite (process_after_start env _ _ _ _ _ _ _ Hstart).
  destruct (settled_log env k
    (create_order_func env market_index client_order_index base_amount price is_ask
       order_type time_in_force reduce_only trigger_price order_expiry n k w1))
    as [rest2 ->].
  destruct (create_order_func_log env market_index client_order_index base_amount price
    is_ask order_type time_in_force reduce_only trigger_price order_expiry n k w1)
    as [rest1 ->].
  exists (rest1 ++ rest2). by rewrite <- app_assoc.
Qed.

(** X23. The four orders with a trigger have the native signer sign a
    create-order transaction with the trigger price and the price they were
    given, the expiry -1 (28 days by default) and the nonce of the attempt:
    of type 4 and time in force 0 for a take-profit order, of type 5 and time
    in force 1 for a take-profit limit order, of type 2 and time in force 0
    for a stop-loss order, of type 3 and time in force 1 for a stop-loss
    limit order. *)
Theorem trigger_orders_sign_their_type (env : Env)
    (market_index client_order_index base_amount trigger_price price : Z)
    (is_ask reduce_only : bool) (api_key_index nonce : Z) (w : World) (k n : Z)
    (w1 : World) :
  attempt_starts env api_key_index nonce w k n w1 ->
  let signs (r : outcome (Result Json) * World) (type tif : Z) :=
    exists rest,
      log r.2 = log w1
                ++ Native_SignCreateOrder
                     (mkOrder market_index client_order_index base_amount price
                        (if is_ask then 1 else 0) type tif
                        (if reduce_only then 1 else 0) trigger_price (-1)) n
                   :: rest in
  signs (create_tp_order env market_index client_order_index base_amount trigger_price
           price is_ask reduce_only nonce api_key_index w) 4 0
  /\ signs (create_tp_limit_order env market_index client_order_index base_amount
              trigger_price price is_ask reduce_only nonce api_key_index w) 5 1
  /\ signs (create_sl_order env market_index client_order_index base_amount trigger_price
              price is_ask reduce_only nonce api_key_index w) 2 0
  /\ signs (create_sl_limit_order env market_index client_order_index base_amount
              trigger_price price is_ask reduce_only nonce api_key_index w) 3 1.
Proof.
  intros Hstart signs. subst signs. cbv beta.
  split_and!; eapply create_order_signs, Hstart.
Qed.

Lemma trigger_orders_sign_their_type_witness :
  exists rest,
    log (create_sl_limit_order (Sample.agreeable 8) 2 0 4 350000 341754 true true (-1) (-1)
           (Sample.world 3 3 8)).2
    = [Call_next_nonce (3, 8); Native_SwitchAPIKey 3;
       Native_SignCreateOrder (mkOrder 2 0 4 341754 1 3 1 1 350000 (-1)) 8] ++ rest.
Proof.
  destruct (trigger_orders_sign_their_type (Sample.agreeable 8) 2 0 4 350000 341754
              true true (-1) (-1) (Sample.world 3 3 8) 3 8 _
              (managed_start (Sample.agreeable 8) (Sample.world 3 3 8) eq_refl))
    as (_ & _ & _ & rest & Hlog).
  exists rest. exact Hlog.
Defined.

(** ** Sub-accounts *)

(** X24. [create_sub_account] works outside the wrapper: it never touches
    the nonce manager, it hands the nonce it is given to the native signer as
    it is, it throws the error with which the API rejects the transaction
    instead of returning it, and it returns the answer of the API without
    looking at its code. *)
Theorem create_sub_account_bypasses_the_manager (env : Env)
    (SignCreateSubAccount : Z -> option StrOrErr) (nonce : Z) (w : World) :
  let r := create_sub_account env SignCreateSubAccount nonce w in
  this r.2 = this w
  /\ (forall signed tx,
        SignCreateSubAccount nonce = Some signed ->
        truthy (err signed) = None ->
        truthy (str signed) = Some tx ->
        char_at_0 tx = Some "{"%char ->
        log r.2 = log w ++ [Api_sendTx TX_TYPE_CREATE_SUB_ACCOUNT tx]
        /\ (forall e, sendTx env (log w) TX_TYPE_CREATE_SUB_ACCOUNT tx = Throws e ->
              r.1 = Throws e)
        /\ (forall resp, sendTx env (log w) TX_TYPE_CREATE_SUB_ACCOUNT tx = Returns resp ->
              r.1 = Returns (Some tx, Some resp, None)))
  /\ (forall signed error,
        SignCreateSubAccount nonce = Some signed ->
        truthy (err signed) = Some error ->
        r = (Returns (None, None, Some error), w)).
Proof.
  intros r. subst r. unfold create_sub_account, sign_create_sub_account.
  split_and!.
  - destruct (truthy (err _)); [done|].
    destruct (truthy (str _)); [|done].
    unfold send_tx. case_decide; [done|].
    unfold mbind, M_bind, get_log, emit, throw, mret, M_ret. cbv beta iota. cbn [log this].
    by destruct (sendTx env _ _ _).
  - intros signed tx Hsign Herr Hstr Hchar. rewrite Hsign. cbn [extractStrOrErr str err].
    rewrite !truthy_idemp, Herr, Hstr. unfold send_tx.
    rewrite decide_False by (rewrite Hchar; intros H; by apply H).
    unfold mbind, M_bind, get_log, emit, throw, mret, M_ret. cbv beta iota. cbn [log this].
    split_and!.
    + by destruct (sendTx env _ _ _).
    + by intros e ->.
    + by intros resp ->.
  - intros signed error Hsign Herr. rewrite Hsign. cbn [extractStrOrErr str err].
    rewrite truthy_idemp, Herr. done.
Qed.

Lemma create_sub_account_bypasses_the_manager_witness :
  (create_sub_account (Sample.rejecting 8 Sample.network_error)
     (fun _ => Some (mkStrOrErr (Some "{}"%string) None)) (-1) (Sample.world 3 3 8)).1
  = Throws Sample.network_error.
Proof.
  destruct (proj1 (proj2 (create_sub_account_bypasses_the_manager
              (Sample.rejecting 8 Sample.network_error)
              (fun _ => Some (mkStrOrErr (Some "{}"%string) None)) (-1)
              (Sample.world 3 3 8)))
              (mkStrOrErr (Some "{}"%string) None) "{}"%string)
    as (_ & Hthrow & _); [reflexivity|reflexivity|reflexivity|reflexivity|].
  apply Hthrow. reflexivity.
Defined.

(** ** Fixed-width hexadecimal *)

Import FastWithdraw.

Lemma digit_value_hex_digit d : 0 <= d < 16 -> digit_value (hex_digit d) = d.
Proof.
  intros H.
  assert (Hc : d = 0 \/ d = 1 \/ d = 2 \/ d = 3 \/ d = 4 \/ d = 5 \/ d = 6 \/ d = 7
               \/ d = 8 \/ d = 9 \/ d = 10 \/ d = 11 \/ d = 12 \/ d = 13 \/ d = 14
               \/ d = 15) by lia.
  repeat (destruct Hc as [->|Hc]; [reflexivity|]). by subst d.
Qed.

Lemma toString16_digits_length fuel : forall n acc (d : nat),
  0 <= n < 16 ^ Z.of_nat (S d) ->
  (String.length (toString16_digits fuel n acc) <= String.length acc + S d)%nat.
Proof.
  induction fuel as [|fuel IH]; intros n acc d Hn; [cbn; lia|].
  cbn [toString16_digits]. case_decide as Hq; [cbn; lia|].
  destruct d as [|d].
  - exfalso. apply Hq. apply Z.div_small. cbn in Hn. lia.
  - specialize (IH (n / 16) (String (hex_digit (n mod 16)) acc) d).
    cbn [String.length] in IH. etrans; [apply IH|lia].
    split; [apply Z.div_pos; lia|].
    apply Z.div_lt_upper_bound; [lia|].
    rewrite (Nat2Z.inj_succ (S d)), Z.pow_succ_r in Hn by lia. lia.
Qed.

Lemma toString16_digits_value fuel : forall n acc,
  0 <= n < 16 ^ Z.of_nat fuel ->
  hex_value (toString16_digits fuel n acc)
  = n * 16 ^ Z.of_nat (String.length acc) + hex_value acc.
Proof.
  induction fuel as [|fuel IH]; intros n acc Hn.
  - cbn in Hn. cbn [toString16_digits]. assert (n = 0) as -> by lia. lia.
  - cbn [toString16_digits].
    assert (Hacc : hex_value (String (hex_digit (n mod 16)) acc)
                   = (n mod 16) * 16 ^ Z.of_nat (String.length acc) + hex_value acc).
    { cbn [hex_value]. rewrite digit_value_hex_digit; [done|]. apply Z.mod_pos_bound. lia. }
    pose proof (Z.div_mod n 16 ltac:(lia)) as Hdm.
    case_decide as Hq.
    + rewrite Hacc. assert (n mod 16 = n) as -> by lia. done.
    + rewrite IH.
      * rewrite Hacc. cbn [String.length]. rewrite Nat2Z.inj_succ, Z.pow_succ_r by lia.
        generalize (16 ^ Z.of_nat (String.length acc)). intros P. nia.
      * split; [apply Z.div_pos; lia|]. apply Z.div_lt_upper_bound; [lia|].
        rewrite Nat2Z.inj_succ, Z.pow_succ_r in Hn by lia. lia.
Qed.

Lemma repeat_char_length c n : String.length (repeat_char c n) = n.
Proof.
  induction n as [|n IH]; [done|].
  change (S (String.length (repeat_char c n)) = S n). by rewrite IH.
Qed.

Lemma string_app_length (a b : string) :
  String.length (a ++ b) = (String.length a + String.length b)%nat.
Proof.
  induction a as [|x a IH]; [done|].
  change (S (String.length (a ++ b)) = S (String.length a + String.length b)).
  by rewrite IH.
Qed.

Lemma hex_value_zeros n s : hex_value (repeat_char "0" n ++ s) = hex_value s.
Proof.
  induction n as [|n IH]; [done|].
  change (hex_value (String "0" (repeat_char "0" n ++ s)) = hex_value s).
  cbn [hex_value]. rewrite IH. change (digit_value "0") with 0. lia.
Qed.

Lemma land_mask n : Z.land n 18446744073709551615 = n mod 2 ^ 64.
Proof. change 18446744073709551615 with (Z.ones 64). apply Z.land_ones. lia. Qed.

Lemma fuel_suffices n : 0 <= n -> n < 16 ^ Z.of_nat (S (Z.to_nat (Z.log2 n))).
Proof.
  intros Hn. destruct (decide (n = 0)) as [->|Hne]; [done|].
  pose proof (Z.log2_spec n ltac:(lia)) as [_ Hlt].
  pose proof (Z.log2_nonneg n) as Hlog.
  rewrite Nat2Z.inj_succ, Z2Nat.id by done.
  eapply Z.lt_le_trans; [exact Hlt|].
  change 16 with (2 ^ 4). rewrite <- Z.pow_mul_r by lia.
  apply Z.pow_le_mono_r; lia.
Qed.

(** X25. [hex16] always gives 16 characters, and they denote in hexadecimal
    the number it was given modulo 2^64: the number itself from 0 up to
    2^64 - 1, and its two's complement on 64 bits when it is negative. So two
    numbers of that range with the same text are the same number. *)
Theorem hex16_fixed_width_round_trip (n : Z) :
  String.length (hex16 n) = 16%nat
  /\ hex_value (hex16 n) = n mod 2 ^ 64
  /\ (0 <= n < 2 ^ 64 -> hex_value (hex16 n) = n)
  /\ (forall n', 0 <= n < 2 ^ 64 -> 0 <= n' < 2 ^ 64 -> hex16 n = hex16 n' -> n = n').
Proof.
  assert (Hval : forall x, hex_value (hex16 x) = x mod 2 ^ 64).
  { intros x. unfold hex16, padStart. rewrite hex_value_zeros, land_mask.
    unfold toString16. rewrite toString16_digits_value.
    - cbn [String.length hex_value]. lia.
    - split; [apply Z.mod_pos_bound; lia|]. apply fuel_suffices.
      apply Z.mod_pos_bound. lia. }
  split_and!.
  - unfold hex16, padStart. rewrite string_app_length, repeat_char_length, land_mask.
    pose proof (Z.mod_pos_bound n (2 ^ 64) ltac:(lia)) as Hm.
    pose proof (toString16_digits_length (S (Z.to_nat (Z.log2 (n mod 2 ^ 64))))
                  (n mod 2 ^ 64) EmptyString 15) as Hlen.
    cbn [String.length] in Hlen. unfold toString16.
    assert (Hle : (String.length
                     (toString16_digits (S (Z.to_nat (Z.log2 (n mod 2 ^ 64))))
                        (n mod 2 ^ 64) EmptyString) <= 16)%nat).
    { apply Hlen. change (16 ^ Z.of_nat 16) with (2 ^ 64). lia. }
    lia.
  - apply Hval.
  - intros Hn. rewrite Hval. apply Z.mod_small. lia.
  - intros n' Hn Hn' Heq.
    rewrite <- (Z.mod_small n (2 ^ 64)), <- (Z.mod_small n' (2 ^ 64)) by lia.
    by rewrite <- !Hval, Heq.
Qed.

Lemma hex16_fixed_width_round_trip_witness :
  hex_value (hex16 410044) = 410044.
Proof.
  refine (proj1 (proj2 (proj2 (hex16_fixed_width_round_trip 410044))) _).
  vm_compute. split; [discriminate|reflexivity].
Defined.
